(** * govc leaf commands [disk.ls] and [host.account.remove]

    A shallow embedding of [cli/disk/ls.go] and of the
    [host.account.remove] command, with the remote management API taken as
    an interface over an abstract world, and the properties of the two
    [Run] methods and of [lsResult.Write] proved over it. *)

From Stdlib Require Import String Ascii List ZArith Bool Lia.
Import ListNotations.
Open Scope string_scope.
Open Scope list_scope.

(** ** Go values shared by both commands *)

(** A Go [error] value as the commands observe it: its [Error()] text and
    whether [fault.Is(err, &types.NotFound{})] holds for it. *)
Record error := mkError {
  Error : string;
  fault_Is_NotFound : bool
}.

(** A remote call made on a world of type [W]: the value it returns and the
    world it leaves. *)
Definition remote (W A : Type) : Type := W -> A * W.

(** ** The part of [vim25/types] the commands touch *)
Module types.

Record ID := mkID { ID_Id : string }.

(** The dynamic type held by a [BaseBaseConfigInfoBackingInfo] interface
    value.  [FilePath] belongs to [BaseConfigInfoFileBackingInfo], which the
    disk-file and the raw-disk-mapping backings both embed.  Typed pointers
    are taken to be non-nil, as the SDK decodes them. *)
Inductive BaseBaseConfigInfoBackingInfo :=
| nil_backing
| BaseConfigInfoBackingInfo
| BaseConfigInfoFileBackingInfo (FilePath : string)
| BaseConfigInfoDiskFileBackingInfo (FilePath : string)
| BaseConfigInfoRawDiskMappingBackingInfo (FilePath : string).

(** [time.Time] as an instant count; the zero value is [0]. *)
Definition Time := Z.

Record BaseConfigInfo := mkBaseConfigInfo {
  Id : ID;
  Name : string;
  CreateTime : Time;
  Backing : BaseBaseConfigInfoBackingInfo
}.

Record VStorageObjectConfigInfo := mkVStorageObjectConfigInfo {
  Base : BaseConfigInfo;
  CapacityInMB : Z
}.

Record VStorageObject := mkVStorageObject {
  Config : VStorageObjectConfigInfo
}.

Record VslmTagEntry := mkVslmTagEntry {
  TagName : string;
  ParentCategoryName : string
}.

End types.

(** ** Package [disk] *)
Module disk.

(** The flags of [disk.ls]. *)
Record ls := mkLs {
  all : bool;
  long : bool;
  path : bool;
  r : bool;
  category : string;
  tag : string;
  tags : bool
}.

Record VStorageObject := mkVStorageObject {
  Object : types.VStorageObject;
  Tags : list types.VslmTagEntry
}.

Record lsResult := mkLsResult {
  cmd : ls;
  Objects : list VStorageObject
}.

Definition sentinel_name : string :=
  "not found: use 'disk.ls -R' to reconcile datastore inventory".

(** The composite literal built for an ID whose backing is gone: every
    field not named in the literal keeps its zero value. *)
Definition placeholder (id : string) : VStorageObject :=
  {| Object :=
       {| types.Config :=
            {| types.Base :=
                 {| types.Id := types.mkID id;
                    types.Name := sentinel_name;
                    types.CreateTime := 0%Z;
                    types.Backing := types.nil_backing |};
               types.CapacityInMB := 0%Z |} |};
     Tags := [] |}.

(** *** [VStorageObject.tags] and [lsResult.Write] *)

Definition tag_label (t : types.VslmTagEntry) : string :=
  (types.ParentCategoryName t ++ ":" ++ types.TagName t)%string.

Definition VStorageObject_tags (o : VStorageObject) : string :=
  String.concat "," (map tag_label (Tags o)).

(** Multiplication on [int64], wrapping around. *)
Definition int64_wrap (z : Z) : Z :=
  ((z + 2 ^ 63) mod 2 ^ 64 - 2 ^ 63)%Z.

Definition int64_mul (a b : Z) : Z := int64_wrap (a * b).

Definition TAB : string := String (ascii_of_nat 9) EmptyString.
Definition NL : string := String (ascii_of_nat 10) EmptyString.

Section Write.

(** [units.FileSize(n).String()] and [t.Format(time.Stamp)]. *)
Variable FileSize_String : Z -> string.
Variable Format_Stamp : types.Time -> string.

(** The columns of the [if r.cmd.long] block. *)
Definition long_columns (c : ls) (o : VStorageObject) : string :=
  let conf := types.Config (Object o) in
  if long c then
    let created := Format_Stamp (types.CreateTime (types.Base conf)) in
    let size :=
      FileSize_String
        (int64_mul (int64_mul (types.CapacityInMB conf) 1024) 1024) in
    (TAB ++ size ++ TAB ++ created)%string
  else "".

(** The column of the [if r.cmd.tags] block. *)
Definition tags_column (c : ls) (o : VStorageObject) : string :=
  if tags c then (TAB ++ VStorageObject_tags o)%string else "".

(** One iteration of the loop of [Write]: the text handed to the tab
    writer for the object [o]. *)
Definition Write_row (c : ls) (o : VStorageObject) : string :=
  let base := types.Base (types.Config (Object o)) in
  let name := types.Name base in
  let name :=
    if path c then
      match types.Backing base with
      | types.BaseConfigInfoDiskFileBackingInfo file_FilePath => file_FilePath
      | _ => name
      end
    else name in
  ((types.ID_Id (types.Id base) ++ TAB ++ name)
   ++ long_columns c o ++ tags_column c o ++ NL)%string.

(** The text [Write] feeds to the tab writer, object after object. *)
Definition Write (res : lsResult) : string :=
  fold_left (fun written o => (written ++ Write_row (cmd res) o)%string)
            (Objects res) "".

End Write.

(** *** The storage-object manager and the calls made on it *)
Section Run.

Variable World : Type.

(** [strconv.Quote], the rendering of [%q]. *)
Variable Quote : string -> string.

Record Manager := mkManager {
  ReconcileDatastoreInventory : remote World (option error);
  List : remote World (error + list types.ID);
  ListAttachedObjects : string -> string -> remote World (error + list types.ID);
  Retrieve : string -> remote World (error + types.VStorageObject);
  ListAttachedTags : string -> remote World (error + list types.VslmTagEntry)
}.

(** What the command needs beside the manager: its acquisition from the
    datastore flag, and [OutputFlag.WriteResult]. *)
Record Env := mkEnv {
  NewManagerFromFlag : remote World (error + Manager);
  WriteResult : lsResult -> remote World (option error)
}.

(** A call on the manager together with what it answered. *)
Inductive Event :=
| EvReconcileDatastoreInventory (res : option error)
| EvList (res : error + list types.ID)
| EvListAttachedObjects (category tag : string) (res : error + list types.ID)
| EvRetrieve (id : string) (res : error + types.VStorageObject)
| EvListAttachedTags (id : string) (res : error + list types.VslmTagEntry).

(** A computation that may return early with an error, acts on the world and
    records the manager calls it makes, in order. *)
Definition M (A : Type) : Type := World -> (error + A) * World * list Event.

Definition ret {A} (a : A) : M A := fun w => (inr a, w, []).

Definition throw {A} (e : error) : M A := fun w => (inl e, w, []).

Definition bind {A B} (c : M A) (k : A -> M B) : M B := fun w =>
  match c w with
  | (inl e, w1, t1) => (inl e, w1, t1)
  | (inr a, w1, t1) => let '(b, w2, t2) := k a w1 in (b, w2, t1 ++ t2)
  end.

(** Run [c] and hand its error, if any, to the caller instead of returning. *)
Definition try {A} (c : M A) : M (error + A) := fun w =>
  let '(x, w1, t1) := c w in (inr x, w1, t1).

Local Notation "x <- c ;; k" := (bind c (fun x => k))
  (at level 61, c at next level, right associativity).
Local Notation "c ;;; k" := (bind c (fun _ => k))
  (at level 61, right associativity).

(** An unrecorded call whose result is [(value, err)]. *)
Definition lift {A} (c : remote World (error + A)) : M A := fun w =>
  let '(x, w1) := c w in (x, w1, []).

(** A call whose only result is an [error]. *)
Definition lift_err (c : remote World (option error)) : M unit := fun w =>
  match c w with
  | (Some e, w1) => (inl e, w1, [])
  | (None, w1) => (inr tt, w1, [])
  end.

Definition call_ReconcileDatastoreInventory (m : Manager) : M unit := fun w =>
  match ReconcileDatastoreInventory m w with
  | (Some e, w1) => (inl e, w1, [EvReconcileDatastoreInventory (Some e)])
  | (None, w1) => (inr tt, w1, [EvReconcileDatastoreInventory None])
  end.

Definition call_List (m : Manager) : M (list types.ID) := fun w =>
  let '(x, w1) := List m w in (x, w1, [EvList x]).

Definition call_ListAttachedObjects (m : Manager) (c t : string)
  : M (list types.ID) := fun w =>
  let '(x, w1) := ListAttachedObjects m c t w in
  (x, w1, [EvListAttachedObjects c t x]).

Definition call_Retrieve (m : Manager) (id : string)
  : M types.VStorageObject := fun w =>
  let '(x, w1) := Retrieve m id w in (x, w1, [EvRetrieve id x]).

Definition call_ListAttachedTags (m : Manager) (id : string)
  : M (list types.VslmTagEntry) := fun w =>
  let '(x, w1) := ListAttachedTags m id w in (x, w1, [EvListAttachedTags id x]).

(** [fmt.Errorf("retrieve %q: %s", id, err)]: a fresh error that does not
    wrap [err], so no fault can be found in it. *)
Definition Errorf_retrieve (id : string) (err : error) : error :=
  {| Error := ("retrieve " ++ Quote id ++ ": " ++ Error err)%string;
     fault_Is_NotFound := false |}.

(** *** [ls.Run] *)

(** The [if cmd.r] block. *)
Definition reconcile (c : ls) (m : Manager) : M unit :=
  if r c then call_ReconcileDatastoreInventory m else ret tt.

(** The [ids := f.Args()] block: the IDs to iterate over, and
    [filterNotFound]. *)
Definition select_ids (c : ls) (m : Manager) (args : list string)
  : M (bool * list string) :=
  match args with
  | [] =>
      oids <- (if String.eqb (category c) ""
               then call_List m
               else call_ListAttachedObjects m (category c) (tag c)) ;;
      ret (true, args ++ map types.ID_Id oids)
  | _ :: _ => ret (false, args)
  end.

(** The [for _, id := range ids] loop; [objects] is [res.Objects]. *)
Fixpoint retrieve_loop (c : ls) (m : Manager) (filterNotFound : bool)
    (ids : list string) (objects : list VStorageObject)
  : M (list VStorageObject) :=
  match ids with
  | [] => ret objects
  | id :: ids' =>
      o <- try (call_Retrieve m id) ;;
      match o with
      | inl err =>
          if filterNotFound && fault_Is_NotFound err then
            retrieve_loop c m filterNotFound ids'
              (if all c then objects ++ [placeholder id] else objects)
          else throw (Errorf_retrieve id err)
      | inr o =>
          obj_Tags <- (if tags c then call_ListAttachedTags m id
                       else ret []) ;;
          retrieve_loop c m filterNotFound ids'
            (objects ++ [{| Object := o; Tags := obj_Tags |}])
      end
  end.

(** [Run] up to the final [return]: the [res] handed to [WriteResult]. *)
Definition Run_result (env : Env) (c : ls) (args : list string) : M lsResult :=
  m <- lift (NewManagerFromFlag env) ;;
  reconcile c m ;;;
  sel <- select_ids c m args ;;
  objects <- retrieve_loop c m (fst sel) (snd sel) [] ;;
  ret {| cmd := c; Objects := objects |}.

Definition Run_M (env : Env) (c : ls) (args : list string) : M unit :=
  res <- Run_result env c args ;;
  lift_err (WriteResult env res).

(** The [error] returned by [Run], the world it leaves and the manager
    calls it made. *)
Definition Run (env : Env) (c : ls) (args : list string)
  : World -> option error * World * list Event := fun w =>
  match Run_M env c args w with
  | (inl e, w1, t) => (Some e, w1, t)
  | (inr _, w1, t) => (None, w1, t)
  end.

End Run.

Arguments ReconcileDatastoreInventory {World}.
Arguments List {World}.
Arguments ListAttachedObjects {World}.
Arguments Retrieve {World}.
Arguments ListAttachedTags {World}.
Arguments NewManagerFromFlag {World}.
Arguments WriteResult {World}.
Arguments ret {World A}.
Arguments throw {World A}.
Arguments bind {World A B}.
Arguments try {World A}.
Arguments lift {World A}.
Arguments lift_err {World}.
Arguments call_ReconcileDatastoreInventory {World}.
Arguments call_List {World}.
Arguments call_ListAttachedObjects {World}.
Arguments call_Retrieve {World}.
Arguments call_ListAttachedTags {World}.
Arguments reconcile {World}.
Arguments select_ids {World}.
Arguments retrieve_loop {World} Quote.
Arguments Run_result {World} Quote.
Arguments Run_M {World} Quote.
Arguments Run {World} Quote.

End disk.

(** ** The account manager of package [object] *)
Module object.

Record HostAccountManager (World : Type) := mkHostAccountManager {
  Remove : string -> remote World (option error)
}.

Arguments Remove {World}.

End object.

(** ** Package [account]: [host.account.remove] *)
Module account.

Section Run.

Variable World : Type.

(** The embedded [AccountFlag]: the [Id] of the [HostAccountSpec] bound by
    the flags and the accessor of the host's account manager. *)
Record AccountFlag := mkAccountFlag {
  HostAccountSpec_Id : string;
  HostAccountManager : remote World (error + object.HostAccountManager World)
}.

Record remove := mkRemove {
  Flag : AccountFlag
}.

(** A call on the account manager together with what it answered. *)
Inductive Event :=
| EvRemove (id : string) (res : option error).

(** The [error] returned by [Run], the world it leaves and the calls made
    on the account manager. *)
Definition Run (cmd : remove)
  : World -> option error * World * list Event := fun w =>
  match HostAccountManager (Flag cmd) w with
  | (inl err, w1) => (Some err, w1, [])
  | (inr m, w1) =>
      let '(res, w2) := object.Remove m (HostAccountSpec_Id (Flag cmd)) w1 in
      (res, w2, [EvRemove (HostAccountSpec_Id (Flag cmd)) res])
  end.

End Run.

Arguments HostAccountSpec_Id {World}.
Arguments HostAccountManager {World}.
Arguments Flag {World}.
Arguments Run {World}.

End account.

(** ** A scripted manager

    A stand-in for the remote API whose world is the number of calls
    answered so far; it serves the concrete runs below. *)
Module fake.

Definition err_not_found : error :=
  {| Error := "object not found"; fault_Is_NotFound := true |}.

Definition err_denied : error :=
  {| Error := "permission denied"; fault_Is_NotFound := false |}.

Definition disk_file (id : string) : types.VStorageObject :=
  {| types.Config :=
       {| types.Base :=
            {| types.Id := types.mkID id;
               types.Name := ("disk-" ++ id)%string;
               types.CreateTime := 1700000000%Z;
               types.Backing :=
                 types.BaseConfigInfoDiskFileBackingInfo
                   ("[ds] fcd/" ++ id ++ ".vmdk")%string |};
          types.CapacityInMB := 10%Z |} |}.

Definition rdm (id : string) : types.VStorageObject :=
  {| types.Config :=
       {| types.Base :=
            {| types.Id := types.mkID id;
               types.Name := ("lun-" ++ id)%string;
               types.CreateTime := 1700000000%Z;
               types.Backing :=
                 types.BaseConfigInfoRawDiskMappingBackingInfo
                   ("[ds] rdm/" ++ id ++ ".vmdk")%string |};
          types.CapacityInMB := 20%Z |} |}.

Definition region_tag : types.VslmTagEntry :=
  {| types.TagName := "us-west-2"; types.ParentCategoryName := "k8s-region" |}.

(** IDs starting with [g] are gone, [x] fails otherwise, [r] is a raw disk
    mapping, anything else is a disk file. *)
Definition retrieve (id : string) : remote nat (error + types.VStorageObject) :=
  fun n =>
    (match id with
     | String "g" _ => inl err_not_found
     | String "x" _ => inl err_denied
     | String "r" _ => inr (rdm id)
     | _ => inr (disk_file id)
     end, S n).

Definition manager (reconcile_ok tags_ok : bool) : disk.Manager nat :=
  {| disk.ReconcileDatastoreInventory := fun n =>
       (if reconcile_ok then None else Some err_denied, S n);
     disk.List := fun n =>
       (inr [types.mkID "a1"; types.mkID "g2"; types.mkID "r3"], S n);
     disk.ListAttachedObjects := fun c t n =>
       (if String.eqb t "none" then inl err_denied
        else inr [types.mkID "g2"; types.mkID "a1"], S n);
     disk.Retrieve := retrieve;
     disk.ListAttachedTags := fun id n =>
       (if tags_ok then inr [region_tag] else inl err_denied, S n) |}.

Definition env (reconcile_ok tags_ok : bool) : disk.Env nat :=
  {| disk.NewManagerFromFlag := fun n =>
       (inr (manager reconcile_ok tags_ok), n);
     disk.WriteResult := fun _ n => (None, n) |}.

Definition env_no_manager : disk.Env nat :=
  {| disk.NewManagerFromFlag := fun n => (inl err_denied, n);
     disk.WriteResult := fun _ n => (None, n) |}.

Definition quote (s : string) : string :=
  (String (ascii_of_nat 34) s ++ String (ascii_of_nat 34) EmptyString)%string.

(** The entry of a retrieved disk file with its tag. *)
Definition entry (id : string) : disk.VStorageObject :=
  {| disk.Object := disk_file id; disk.Tags := [region_tag] |}.

Definition listed : list types.ID :=
  [types.mkID "a1"; types.mkID "g2"; types.mkID "r3"].

(** An account manager under which only [root] cannot be removed. *)
Definition account_manager : object.HostAccountManager nat :=
  {| object.Remove := fun id n =>
       (if String.eqb id "root" then Some err_denied else None, S n) |}.

Definition remove_cmd (id : string) (reachable : bool) : account.remove nat :=
  {| account.Flag :=
       {| account.HostAccountSpec_Id := id;
          account.HostAccountManager := fun n =>
            (if reachable then inr account_manager else inl err_not_found,
             n) |} |}.

Definition flags (a R T : bool) (c t : string) : disk.ls :=
  {| disk.all := a; disk.long := false; disk.path := false; disk.r := R;
     disk.category := c; disk.tag := t; disk.tags := T |}.

(** A manager under which the datastore lists the given IDs. *)
Definition manager_listing (ids : list string) : disk.Manager nat :=
  {| disk.ReconcileDatastoreInventory := fun n => (None, S n);
     disk.List := fun n => (inr (map types.mkID ids), S n);
     disk.ListAttachedObjects := fun c t n => (inr (map types.mkID ids), S n);
     disk.Retrieve := retrieve;
     disk.ListAttachedTags := fun id n => (inr [region_tag], S n) |}.

Definition env_listing (ids : list string) : disk.Env nat :=
  {| disk.NewManagerFromFlag := fun n => (inr (manager_listing ids), n);
     disk.WriteResult := fun _ n => (None, n) |}.

End fake.

(** ** Vocabulary of the properties *)

Module spec.

(** The file path of a backing that passes the assertion to
    [*types.BaseConfigInfoDiskFileBackingInfo]. *)
Definition disk_file_path (b : types.BaseBaseConfigInfoBackingInfo)
  : option string :=
  match b with
  | types.BaseConfigInfoDiskFileBackingInfo p => Some p
  | _ => None
  end.

(** The second column as the specification words it: the backing path when
    [-L] is set and the backing is a disk-file backing, the configured name
    otherwise. *)
Definition shown_name (L : bool) (o : disk.VStorageObject) : string :=
  let base := types.Base (types.Config (disk.Object o)) in
  match (if L then disk_file_path (types.Backing base) else None) with
  | Some p => p
  | None => types.Name base
  end.

(** The kinds of manager calls. *)
Definition is_reconcile (ev : disk.Event) : bool :=
  match ev with disk.EvReconcileDatastoreInventory _ => true | _ => false end.

Definition is_discovery (ev : disk.Event) : bool :=
  match ev with
  | disk.EvList _ | disk.EvListAttachedObjects _ _ _ => true
  | _ => false
  end.

Definition is_per_id (ev : disk.Event) : bool :=
  match ev with
  | disk.EvRetrieve _ _ | disk.EvListAttachedTags _ _ => true
  | _ => false
  end.

(** The discovery call the flags select, with its answer [x]. *)
Definition discovery_event (c : disk.ls) (x : error + list types.ID)
  : disk.Event :=
  if String.eqb (disk.category c) "" then disk.EvList x
  else disk.EvListAttachedObjects (disk.category c) (disk.tag c) x.

(** The [Retrieve] calls of a trace, in order, with their answers. *)
Fixpoint retrievals (t : list disk.Event)
  : list (string * (error + types.VStorageObject)) :=
  match t with
  | [] => []
  | disk.EvRetrieve id x :: t' => (id, x) :: retrievals t'
  | _ :: t' => retrievals t'
  end.

(** What one [Retrieve] call contributes to the result of a run with the
    arguments [args]: the retrieved object, or for a not-found answer in a
    run without arguments the placeholder (with [-a]) or nothing. *)
Definition entry_of (c : disk.ls) (args : list string)
    (call : string * (error + types.VStorageObject))
    (entry : option disk.VStorageObject) : Prop :=
  match snd call with
  | inr o =>
      exists obj, entry = Some obj /\ disk.Object obj = o
                  /\ (disk.tags c = false -> disk.Tags obj = [])
  | inl err =>
      args = [] /\ fault_Is_NotFound err = true
      /\ entry = if disk.all c then Some (disk.placeholder (fst call)) else None
  end.

(** [o.Config.Id.Id]. *)
Definition object_id (o : disk.VStorageObject) : string :=
  types.ID_Id (types.Id (types.Base (types.Config (disk.Object o)))).

Definition present {A} (entry : option A) : list A :=
  match entry with Some a => [a] | None => [] end.

Definition not_per_id (ev : disk.Event) : bool := negb (is_per_id ev).

(** [filterNotFound] as the arguments decide it. *)
Definition filters_not_found (args : list string) : bool :=
  match args with [] => true | _ :: _ => false end.

(** The same flags with another tag query. *)
Definition with_query (category tag : string) (c : disk.ls) : disk.ls :=
  {| disk.all := disk.all c; disk.long := disk.long c;
     disk.path := disk.path c; disk.r := disk.r c;
     disk.category := category; disk.tag := tag;
     disk.tags := disk.tags c |}.

(** The discovery call the flags select. *)
Definition discovery_call {W} (c : disk.ls) (m : disk.Manager W)
  : remote W (error + list types.ID) :=
  if String.eqb (disk.category c) "" then disk.List m
  else disk.ListAttachedObjects m (disk.category c) (disk.tag c).

(** The [res] built from the outcome of the retrieval loop. *)
Definition as_result (c : disk.ls) (x : error + list disk.VStorageObject)
  : error + disk.lsResult :=
  match x with
  | inl e => inl e
  | inr objs => inr {| disk.cmd := c; disk.Objects := objs |}
  end.

(** An [M] outcome with the [cmd] of the result left out. *)
Definition objects_of {W}
    (out : (error + disk.lsResult) * W * list disk.Event)
  : (error + list disk.VStorageObject) * W * list disk.Event :=
  match out with
  | (inl e, w, t) => (inl e, w, t)
  | (inr res, w, t) => (inr (disk.Objects res), w, t)
  end.

(** The runs of the retrieval loop, case by case. *)
Section LoopRuns.

Context {World : Type}.
Variable Quote : string -> string.
Variable c : disk.ls.
Variable m : disk.Manager World.
Variable filterNotFound : bool.

Inductive loop_run
  : list string -> list disk.VStorageObject -> World ->
    error + list disk.VStorageObject -> World -> list disk.Event -> Prop :=
| run_done objs w :
    loop_run [] objs w (inr objs) w []
| run_tolerated id ids objs w err w1 x w2 t :
    disk.Retrieve m id w = (inl err, w1) ->
    filterNotFound = true -> fault_Is_NotFound err = true ->
    loop_run ids
      (if disk.all c then objs ++ [disk.placeholder id] else objs) w1 x w2 t ->
    loop_run (id :: ids) objs w x w2 (disk.EvRetrieve id (inl err) :: t)
| run_fatal id ids objs w err w1 :
    disk.Retrieve m id w = (inl err, w1) ->
    filterNotFound && fault_Is_NotFound err = false ->
    loop_run (id :: ids) objs w
      (inl (disk.Errorf_retrieve Quote id err)) w1
      [disk.EvRetrieve id (inl err)]
| run_untagged id ids objs w o w1 x w2 t :
    disk.Retrieve m id w = (inr o, w1) ->
    disk.tags c = false ->
    loop_run ids (objs ++ [disk.mkVStorageObject o []]) w1 x w2 t ->
    loop_run (id :: ids) objs w x w2 (disk.EvRetrieve id (inr o) :: t)
| run_tags_failed id ids objs w o w1 err w2 :
    disk.Retrieve m id w = (inr o, w1) ->
    disk.tags c = true ->
    disk.ListAttachedTags m id w1 = (inl err, w2) ->
    loop_run (id :: ids) objs w (inl err) w2
      [disk.EvRetrieve id (inr o); disk.EvListAttachedTags id (inl err)]
| run_tagged id ids objs w o w1 tg w2 x w3 t :
    disk.Retrieve m id w = (inr o, w1) ->
    disk.tags c = true ->
    disk.ListAttachedTags m id w1 = (inr tg, w2) ->
    loop_run ids (objs ++ [disk.mkVStorageObject o tg]) w2 x w3 t ->
    loop_run (id :: ids) objs w x w3
      (disk.EvRetrieve id (inr o) :: disk.EvListAttachedTags id (inr tg) :: t).

End LoopRuns.

End spec.

(** ** Reading the output back, and replaying a trace *)

Module aux.

(** [s] holds no character [a]. *)
Fixpoint free_of (a : ascii) (s : string) : bool :=
  match s with
  | EmptyString => true
  | String b s' => negb (Ascii.eqb b a) && free_of a s'
  end.

(** The fields of [s] between the separators [sep]. *)
Fixpoint split_on (sep : ascii) (s : string) : list string :=
  match s with
  | EmptyString => [EmptyString]
  | String b s' =>
      if Ascii.eqb b sep then EmptyString :: split_on sep s'
      else match split_on sep s' with
           | [] => [String b EmptyString]
           | field :: fields => String b field :: fields
           end
  end.

(** [s] cut at its first [sep]: what is before it and what is after. *)
Fixpoint cut (sep : ascii) (s : string) : string * string :=
  match s with
  | EmptyString => (EmptyString, EmptyString)
  | String b s' =>
      if Ascii.eqb b sep then (EmptyString, s')
      else let '(before, after) := cut sep s' in (String b before, after)
  end.

Definition parse_label (s : string) : types.VslmTagEntry :=
  let '(category, name) := cut ":"%char s in
  {| types.TagName := name; types.ParentCategoryName := category |}.

(** The tags written in a tags column. *)
Definition parse_tags (s : string) : list types.VslmTagEntry :=
  match s with
  | EmptyString => []
  | _ => map parse_label (split_on ","%char s)
  end.

(** A tag whose column text reads back: no comma in it, and no colon in
    its category. *)
Definition readable (t : types.VslmTagEntry) : bool :=
  free_of ","%char (types.ParentCategoryName t)
  && free_of ":"%char (types.ParentCategoryName t)
  && free_of ","%char (types.TagName t).

(** The result a trace of per-ID calls stands for: each retrieved object
    with the tags answered right after it, and for each failed retrieval
    the placeholder when [a] is set. *)
Fixpoint replay (a : bool) (t : list disk.Event) : list disk.VStorageObject :=
  match t with
  | [] => []
  | disk.EvRetrieve id (inl _) :: t' =>
      if a then disk.placeholder id :: replay a t' else replay a t'
  | disk.EvRetrieve id (inr o) :: t' =>
      match t' with
      | disk.EvListAttachedTags _ (inr tg) :: t'' =>
          disk.mkVStorageObject o tg :: replay a t''
      | _ => disk.mkVStorageObject o [] :: replay a t'
      end
  | _ :: t' => replay a t'
  end.

(** The error a call answered, if it answered one. *)
Definition answered_error (ev : disk.Event) : option error :=
  match ev with
  | disk.EvReconcileDatastoreInventory res => res
  | disk.EvList (inl e) | disk.EvListAttachedObjects _ _ (inl e)
  | disk.EvRetrieve _ (inl e) | disk.EvListAttachedTags _ (inl e) => Some e
  | _ => None
  end.

(** The same flags with other output options [-l] and [-L]. *)
Definition with_format (l L : bool) (c : disk.ls) : disk.ls :=
  {| disk.all := disk.all c; disk.long := l; disk.path := L;
     disk.r := disk.r c; disk.category := disk.category c;
     disk.tag := disk.tag c; disk.tags := disk.tags c |}.

(** The same flags with another [-a]. *)
Definition with_all (a : bool) (c : disk.ls) : disk.ls :=
  {| disk.all := a; disk.long := disk.long c; disk.path := disk.path c;
     disk.r := disk.r c; disk.category := disk.category c;
     disk.tag := disk.tag c; disk.tags := disk.tags c |}.

(** An outcome with its value left out: the error if any, the world and
    the calls. *)
Definition forget {W A} (out : (error + A) * W * list disk.Event)
  : option error * W * list disk.Event :=
  match out with
  | (inl e, w, t) => (Some e, w, t)
  | (inr _, w, t) => (None, w, t)
  end.

End aux.

(** ** Properties of [lsResult.Write] *)

Section WriteFacts.

Variable FileSize_String : Z -> string.
Variable Format_Stamp : types.Time -> string.

Lemma append_nil_r (s : string) : (s ++ "")%string = s.
Proof. induction s as [|a s IH]; simpl; [reflexivity | now rewrite IH]. Qed.

Lemma append_assoc (s1 s2 s3 : string) :
  (s1 ++ (s2 ++ s3))%string = ((s1 ++ s2) ++ s3)%string.
Proof. induction s1 as [|a s1 IH]; simpl; [reflexivity | now rewrite IH]. Qed.

Lemma fold_left_append_concat (rows : list string) (written : string) :
  fold_left (fun acc row => (acc ++ row)%string) rows written
  = (written ++ String.concat "" rows)%string.
Proof.
  revert written; induction rows as [|row rows IH]; intros written; simpl.
  - now rewrite append_nil_r.
  - rewrite IH. destruct rows as [|row' rows].
    + simpl. now rewrite !append_nil_r.
    + now rewrite <- append_assoc.
Qed.

Lemma fold_left_map_rows {A} (f : A -> string) (l : list A) (written : string) :
  fold_left (fun acc a => (acc ++ f a)%string) l written
  = fold_left (fun acc row => (acc ++ row)%string) (map f l) written.
Proof.
  revert written; induction l as [|a l IH]; intros; simpl; auto.
Qed.

Lemma Write_row_shown_name (c : disk.ls) (o : disk.VStorageObject) :
  disk.Write_row FileSize_String Format_Stamp c o
  = (types.ID_Id (types.Id (types.Base (types.Config (disk.Object o))))
     ++ disk.TAB ++ spec.shown_name (disk.path c) o
     ++ disk.long_columns FileSize_String Format_Stamp c o
     ++ disk.tags_column c o ++ disk.NL)%string.
Proof.
  unfold disk.Write_row, spec.shown_name, spec.disk_file_path.
  rewrite <- !append_assoc.
  destruct (disk.path c); [|reflexivity].
  destruct (types.Backing _); reflexivity.
Qed.

(** C6: the text written for a result is, object after object, the ID, a
    tab, and then the backing file path when [-L] is set and the backing is
    a disk-file backing, the configured name in every other case, followed
    by the optional columns and a newline. *)
Theorem Write_shows_path_only_for_disk_file_backing (res : disk.lsResult) :
  disk.Write FileSize_String Format_Stamp res
  = String.concat ""
      (map (fun o =>
              (types.ID_Id (types.Id (types.Base (types.Config (disk.Object o))))
               ++ disk.TAB ++ spec.shown_name (disk.path (disk.cmd res)) o
               ++ disk.long_columns FileSize_String Format_Stamp (disk.cmd res) o
               ++ disk.tags_column (disk.cmd res) o ++ disk.NL)%string)
           (disk.Objects res)).
Proof.
  unfold disk.Write.
  rewrite (fold_left_map_rows
             (disk.Write_row FileSize_String Format_Stamp (disk.cmd res))).
  rewrite fold_left_append_concat. simpl.
  f_equal. apply map_ext. intros o. apply Write_row_shown_name.
Qed.

End WriteFacts.

(** ** More on [VStorageObject.tags] and [lsResult.Write] *)

Section TagsColumn.

Lemma append_eq_empty (a b : string) :
  (a ++ b)%string = "" -> a = "" /\ b = "".
Proof. destruct a; simpl; [auto | discriminate]. Qed.

Lemma tag_label_not_empty (t : types.VslmTagEntry) : disk.tag_label t <> "".
Proof.
  unfold disk.tag_label. intros E.
  apply append_eq_empty in E as [_ E]. discriminate.
Qed.

Lemma concat_labels_not_empty (l : list types.VslmTagEntry) :
  l <> [] -> String.concat "," (map disk.tag_label l) <> "".
Proof.
  destruct l as [|t [|t' l]]; [congruence | |]; intros _ E; simpl in E.
  - now apply tag_label_not_empty in E.
  - apply append_eq_empty in E as [E _]. now apply tag_label_not_empty in E.
Qed.

(** X1: the tags column of an object is empty exactly when the object has
    no tags. *)
Theorem tags_empty_iff_no_tags (o : disk.VStorageObject) :
  disk.VStorageObject_tags o = "" <-> disk.Tags o = [].
Proof.
  unfold disk.VStorageObject_tags. split.
  - intros E. destruct (disk.Tags o) as [|t l] eqn:ET; [reflexivity|].
    exfalso. revert E. now apply concat_labels_not_empty.
  - now intros ->.
Qed.

Lemma free_of_append (a : ascii) (x y : string) :
  aux.free_of a (x ++ y)%string = aux.free_of a x && aux.free_of a y.
Proof.
  induction x as [|b x IH]; simpl; [reflexivity|].
  now rewrite IH, andb_assoc.
Qed.

Lemma split_on_free (sep : ascii) (x : string) :
  aux.free_of sep x = true -> aux.split_on sep x = [x].
Proof.
  induction x as [|b x IH]; simpl; [reflexivity|].
  intros H. apply andb_prop in H as [Hb Hx].
  apply negb_true_iff in Hb. now rewrite Hb, (IH Hx).
Qed.

Lemma split_on_append (sep : ascii) (x y : string) :
  aux.free_of sep x = true ->
  aux.split_on sep (x ++ String sep y)%string = x :: aux.split_on sep y.
Proof.
  induction x as [|b x IH]; simpl.
  - intros _. now rewrite Ascii.eqb_refl.
  - intros H. apply andb_prop in H as [Hb Hx].
    apply negb_true_iff in Hb. now rewrite Hb, (IH Hx).
Qed.

Lemma cut_append (sep : ascii) (x y : string) :
  aux.free_of sep x = true ->
  aux.cut sep (x ++ String sep y)%string = (x, y).
Proof.
  induction x as [|b x IH]; simpl.
  - intros _. now rewrite Ascii.eqb_refl.
  - intros H. apply andb_prop in H as [Hb Hx].
    apply negb_true_iff in Hb. now rewrite Hb, (IH Hx).
Qed.

Lemma parse_label_tag_label (t : types.VslmTagEntry) :
  aux.free_of ":"%char (types.ParentCategoryName t) = true ->
  aux.parse_label (disk.tag_label t) = t.
Proof.
  intros H. unfold aux.parse_label, disk.tag_label.
  change (":" ++ types.TagName t)%string
    with (String ":"%char (types.TagName t)).
  rewrite (cut_append _ _ _ H). now destruct t.
Qed.

Lemma tag_label_free_of_comma (t : types.VslmTagEntry) :
  aux.readable t = true -> aux.free_of ","%char (disk.tag_label t) = true.
Proof.
  unfold aux.readable, disk.tag_label. intros H.
  apply andb_prop in H as [H Hname]. apply andb_prop in H as [Hcat _].
  rewrite free_of_append, Hcat. simpl. exact Hname.
Qed.

Lemma split_concat_labels (l : list types.VslmTagEntry) :
  l <> [] -> forallb aux.readable l = true ->
  aux.split_on ","%char (String.concat "," (map disk.tag_label l))
  = map disk.tag_label l.
Proof.
  induction l as [|t l IH]; [congruence|]. intros _ H.
  simpl in H. apply andb_prop in H as [Ht Hl].
  apply tag_label_free_of_comma in Ht.
  destruct l as [|t' l].
  - simpl. now apply split_on_free.
  - change (String.concat "," (map disk.tag_label (t :: t' :: l)))
      with (disk.tag_label t
            ++ String ","%char
                 (String.concat "," (map disk.tag_label (t' :: l))))%string.
    rewrite (split_on_append _ _ _ Ht), IH by (congruence || assumption).
    reflexivity.
Qed.

(** X2: the tags column reads back to the tags it was written from, when
    no category and no tag name holds a comma and no category holds a
    colon. *)
Theorem tags_column_reads_back (o : disk.VStorageObject) :
  forallb aux.readable (disk.Tags o) = true ->
  aux.parse_tags (disk.VStorageObject_tags o) = disk.Tags o.
Proof.
  unfold disk.VStorageObject_tags. intros H.
  destruct (disk.Tags o) as [|t l] eqn:ET; [reflexivity|].
  assert (Hne : t :: l <> []) by discriminate.
  pose proof (concat_labels_not_empty _ Hne) as Hs.
  pose proof (split_concat_labels _ Hne H) as Hsplit.
  unfold aux.parse_tags.
  destruct (String.concat "," (map disk.tag_label (t :: l))) as [|b s'];
    [congruence|].
  rewrite Hsplit, map_map.
  clear Hs Hsplit Hne ET. induction (t :: l) as [|t0 l0 IH]; [reflexivity|].
  simpl in H. apply andb_prop in H as [Ht Hl].
  simpl. rewrite (IH Hl). f_equal.
  apply parse_label_tag_label.
  unfold aux.readable in Ht.
  apply andb_prop in Ht as [Ht _]. now apply andb_prop in Ht as [_ Ht].
Qed.

End TagsColumn.

Section WriteMore.

Variable FileSize_String : Z -> string.
Variable Format_Stamp : types.Time -> string.

Lemma fold_left_rows_from (c : disk.ls) (objs : list disk.VStorageObject)
    (written : string) :
  fold_left
    (fun acc o =>
       (acc ++ disk.Write_row FileSize_String Format_Stamp c o)%string)
    objs written
  = (written
     ++ disk.Write FileSize_String Format_Stamp
          {| disk.cmd := c; disk.Objects := objs |})%string.
Proof.
  unfold disk.Write. simpl.
  rewrite !(fold_left_map_rows
              (disk.Write_row FileSize_String Format_Stamp c)).
  now rewrite !fold_left_append_concat.
Qed.

Lemma Write_row_not_empty (c : disk.ls) (o : disk.VStorageObject) :
  disk.Write_row FileSize_String Format_Stamp c o <> "".
Proof.
  unfold disk.Write_row. intros E.
  apply append_eq_empty in E as [_ E].
  apply append_eq_empty in E as [_ E].
  apply append_eq_empty in E as [_ E]. discriminate.
Qed.

(** X4: [Write] writes nothing exactly when the result holds no object. *)
Theorem Write_empty_iff_no_objects (res : disk.lsResult) :
  disk.Write FileSize_String Format_Stamp res = "" <-> disk.Objects res = [].
Proof.
  destruct res as [c objs]. simpl. split.
  - destruct objs as [|o objs]; [reflexivity|]. intros E. exfalso.
    unfold disk.Write in E. simpl in E. rewrite fold_left_rows_from in E.
    apply append_eq_empty in E as [E _].
    now apply Write_row_not_empty in E.
  - now intros ->.
Qed.

Lemma int64_wrap_range (z : Z) :
  (- 2 ^ 63 <= disk.int64_wrap z < 2 ^ 63)%Z.
Proof.
  unfold disk.int64_wrap.
  change (2 ^ 63)%Z with 9223372036854775808%Z.
  change (2 ^ 64)%Z with 18446744073709551616%Z.
  pose proof (Z.mod_pos_bound (z + 9223372036854775808)
                18446744073709551616 eq_refl).
  lia.
Qed.

Lemma int64_wrap_small (z : Z) :
  (- 2 ^ 63 <= z < 2 ^ 63)%Z -> disk.int64_wrap z = z.
Proof.
  unfold disk.int64_wrap.
  change (2 ^ 63)%Z with 9223372036854775808%Z.
  change (2 ^ 64)%Z with 18446744073709551616%Z.
  intros H. rewrite Z.mod_small; lia.
Qed.

Lemma int64_mul_in_range (capacity : Z) :
  (- 2 ^ 43 <= capacity < 2 ^ 43)%Z ->
  disk.int64_mul (disk.int64_mul capacity 1024) 1024
  = (capacity * 1048576)%Z.
Proof.
  intros H. unfold disk.int64_mul.
  rewrite (int64_wrap_small (capacity * 1024)).
  - rewrite int64_wrap_small; [lia|]. revert H.
    change (2 ^ 63)%Z with 9223372036854775808%Z.
    change (2 ^ 43)%Z with 8796093022208%Z. lia.
  - revert H.
    change (2 ^ 63)%Z with 9223372036854775808%Z.
    change (2 ^ 43)%Z with 8796093022208%Z. lia.
Qed.

(** The two wrapping products amount to one reduction of the exact
    product. *)
Lemma int64_mul_twice (capacity : Z) :
  disk.int64_mul (disk.int64_mul capacity 1024) 1024
  = ((capacity * 1048576 + 2 ^ 63) mod 2 ^ 64 - 2 ^ 63)%Z.
Proof.
  unfold disk.int64_mul, disk.int64_wrap. f_equal.
  rewrite <- (Zplus_mod_idemp_l
                (((capacity * 1024 + 2 ^ 63) mod 2 ^ 64 - 2 ^ 63) * 1024)).
  rewrite <- (Zmult_mod_idemp_l
                ((capacity * 1024 + 2 ^ 63) mod 2 ^ 64 - 2 ^ 63)).
  rewrite Zminus_mod_idemp_l.
  replace (capacity * 1024 + 2 ^ 63 - 2 ^ 63)%Z
    with (capacity * 1024)%Z by lia.
  rewrite Zmult_mod_idemp_l, Zplus_mod_idemp_l.
  f_equal. lia.
Qed.

(** X5: with [-l] the columns added for an object are a tab, the text of
    [units.FileSize] for the [int64] product [CapacityInMB * 1024 * 1024],
    a tab and the creation time; that product is the capacity in bytes
    reduced into the [int64] range, and it is the capacity in bytes itself
    exactly when the capacity lies in [-2^43, 2^43).  Without [-l] no
    column is added. *)
Theorem long_columns_size (c : disk.ls) (o : disk.VStorageObject) :
  disk.long_columns FileSize_String Format_Stamp c o
  = (if disk.long c then
       (disk.TAB
        ++ FileSize_String
             ((types.CapacityInMB (types.Config (disk.Object o)) * 1048576
               + 2 ^ 63) mod 2 ^ 64 - 2 ^ 63)%Z
        ++ disk.TAB
        ++ Format_Stamp
             (types.CreateTime
                (types.Base (types.Config (disk.Object o)))))%string
     else "")
  /\ (((types.CapacityInMB (types.Config (disk.Object o)) * 1048576
        + 2 ^ 63) mod 2 ^ 64 - 2 ^ 63
       = types.CapacityInMB (types.Config (disk.Object o)) * 1048576)%Z
      <-> (- 2 ^ 43 <= types.CapacityInMB (types.Config (disk.Object o))
           < 2 ^ 43)%Z).
Proof.
  split.
  - unfold disk.long_columns. destruct (disk.long c); [|reflexivity].
    now rewrite int64_mul_twice.
  - rewrite <- int64_mul_twice. split.
    + intros E.
      pose proof (int64_wrap_range
                    (disk.int64_mul
                       (types.CapacityInMB (types.Config (disk.Object o)))
                       1024 * 1024)) as H.
      unfold disk.int64_mul at 1 in E. rewrite E in H. revert H.
      change (2 ^ 63)%Z with 9223372036854775808%Z.
      change (2 ^ 43)%Z with 8796093022208%Z. lia.
    + apply int64_mul_in_range.
Qed.

End WriteMore.

(** ** Properties of [ls.Run] *)

Section LsRun.

Context {World : Type}.
Variable Quote : string -> string.

Implicit Types (c : disk.ls) (m : disk.Manager World) (env : disk.Env World)
  (w : World) (t : list disk.Event) (ids args : list string)
  (objs : list disk.VStorageObject).

(** *** The retrieval loop *)

(** Induction on a run of the loop, with the six cases named alike. *)
Ltac loop_run_cases :=
  induction 1 as [ objs w
                 | id ids objs w err w1 x w2 t ER EF ENF HL IH
                 | id ids objs w err w1 ER EF
                 | id ids objs w o w1 x w2 t ER ET HL IH
                 | id ids objs w o w1 err w2 ER ET EA
                 | id ids objs w o w1 tg w2 x w3 t ER ET EA HL IH ].

Lemma loop_run_complete c m fnf ids : forall objs w x w' t,
  disk.retrieve_loop Quote c m fnf ids objs w = (x, w', t) ->
  spec.loop_run Quote c m fnf ids objs w x w' t.
Proof.
  induction ids as [|id ids IH]; intros objs w x w' t; simpl.
  - unfold disk.ret. intros [= <- <- <-]. constructor.
  - unfold disk.bind at 1, disk.try, disk.call_Retrieve.
    destruct (disk.Retrieve m id w) as [[err|o] w1] eqn:ER.
    + destruct (fnf && fault_Is_NotFound err) eqn:EF.
      * apply andb_prop in EF as [-> ENF].
        destruct (disk.retrieve_loop _ _ _ _ _ _ _) as [[x' w2] t'] eqn:EL.
        intros [= <- <- <-]. simpl.
        eapply spec.run_tolerated; eauto.
      * unfold disk.throw. intros [= <- <- <-]. simpl.
        now apply spec.run_fatal.
    + unfold disk.bind.
      destruct (disk.tags c) eqn:ET.
      * unfold disk.call_ListAttachedTags.
        destruct (disk.ListAttachedTags m id w1) as [[err|tg] w2] eqn:EA.
        -- intros [= <- <- <-]. simpl. eapply spec.run_tags_failed; eauto.
        -- destruct (disk.retrieve_loop _ _ _ _ _ _ _) as [[x' w3] t'] eqn:EL.
           intros [= <- <- <-]. simpl. eapply spec.run_tagged; eauto.
      * unfold disk.ret.
        destruct (disk.retrieve_loop _ _ _ _ _ _ _) as [[x' w3] t'] eqn:EL.
        intros [= <- <- <-]. simpl. eapply spec.run_untagged; eauto.
Qed.

Lemma loop_cons c m fnf id ids objs w :
  disk.retrieve_loop Quote c m fnf (id :: ids) objs w
  = match disk.Retrieve m id w with
    | (inl err, w1) =>
        if fnf && fault_Is_NotFound err then
          let '(x, w2, t) :=
            disk.retrieve_loop Quote c m fnf ids
              (if disk.all c then objs ++ [disk.placeholder id] else objs) w1 in
          (x, w2, disk.EvRetrieve id (inl err) :: t)
        else (inl (disk.Errorf_retrieve Quote id err), w1,
              [disk.EvRetrieve id (inl err)])
    | (inr o, w1) =>
        if disk.tags c then
          match disk.ListAttachedTags m id w1 with
          | (inl err, w2) =>
              (inl err, w2,
               [disk.EvRetrieve id (inr o);
                disk.EvListAttachedTags id (inl err)])
          | (inr tg, w2) =>
              let '(x, w3, t) :=
                disk.retrieve_loop Quote c m fnf ids
                  (objs ++ [disk.mkVStorageObject o tg]) w2 in
              (x, w3,
               disk.EvRetrieve id (inr o)
               :: disk.EvListAttachedTags id (inr tg) :: t)
          end
        else
          let '(x, w2, t) :=
            disk.retrieve_loop Quote c m fnf ids
              (objs ++ [disk.mkVStorageObject o []]) w1 in
          (x, w2, disk.EvRetrieve id (inr o) :: t)
    end.
Proof.
  simpl. unfold disk.bind at 1, disk.try, disk.call_Retrieve.
  destruct (disk.Retrieve m id w) as [[err|o] w1].
  - destruct (fnf && fault_Is_NotFound err); [|reflexivity].
    now destruct (disk.retrieve_loop _ _ _ _ _ _ _) as [[x w2] t].
  - unfold disk.bind. destruct (disk.tags c).
    + unfold disk.call_ListAttachedTags.
      destruct (disk.ListAttachedTags m id w1) as [[err|tg] w2];
        [reflexivity|].
      now destruct (disk.retrieve_loop _ _ _ _ _ _ _) as [[x w3] t].
    + unfold disk.ret.
      now destruct (disk.retrieve_loop _ _ _ _ _ _ _) as [[x w3] t].
Qed.

(** Iterating over [ids1 ++ ids2] is iterating over [ids1] and, if that
    went through, over [ids2] from where it ended. *)
Lemma loop_app c m fnf ids1 ids2 : forall objs w objs1 w1 t1,
  disk.retrieve_loop Quote c m fnf ids1 objs w = (inr objs1, w1, t1) ->
  disk.retrieve_loop Quote c m fnf (ids1 ++ ids2) objs w
  = let '(x, w2, t2) := disk.retrieve_loop Quote c m fnf ids2 objs1 w1 in
    (x, w2, t1 ++ t2).
Proof.
  induction ids1 as [|id ids1 IH]; intros objs w objs1 w1 t1.
  - simpl. unfold disk.ret. intros [= <- <- <-].
    now destruct (disk.retrieve_loop _ _ _ _ _ _ _) as [[x w2] t2].
  - rewrite <- app_comm_cons, !loop_cons.
    destruct (disk.Retrieve m id w) as [[err|o] w0].
    + destruct (fnf && fault_Is_NotFound err); [|discriminate].
      destruct (disk.retrieve_loop Quote c m fnf ids1 _ w0)
        as [[x w2] t] eqn:EL.
      intros [= -> <- <-]. rewrite (IH _ _ _ _ _ EL).
      now destruct (disk.retrieve_loop Quote c m fnf ids2 _ _) as [[y w3] t2].
    + destruct (disk.tags c).
      * destruct (disk.ListAttachedTags m id w0) as [[err|tg] w2];
          [discriminate|].
        destruct (disk.retrieve_loop Quote c m fnf ids1 _ w2)
          as [[x w3] t] eqn:EL.
        intros [= -> <- <-]. rewrite (IH _ _ _ _ _ EL).
        now destruct (disk.retrieve_loop Quote c m fnf ids2 _ _) as [[y w4] t2].
      * destruct (disk.retrieve_loop Quote c m fnf ids1 _ w0)
          as [[x w3] t] eqn:EL.
        intros [= -> <- <-]. rewrite (IH _ _ _ _ _ EL).
        now destruct (disk.retrieve_loop Quote c m fnf ids2 _ _) as [[y w4] t2].
Qed.

(** A failed retrieval stops a loop that does not filter not-found
    answers, with the error naming the ID. *)
Lemma loop_run_unfiltered_failure c m ids objs w x w' t :
  spec.loop_run Quote c m false ids objs w x w' t ->
  forall key failure, In (disk.EvRetrieve key (inl failure)) t ->
  x = inl (disk.Errorf_retrieve Quote key failure)
  /\ In key ids
  /\ exists t0, t = t0 ++ [disk.EvRetrieve key (inl failure)].
Proof.
  loop_run_cases;
    intros key failure HIn; simpl in HIn.
  - contradiction.
  - discriminate.
  - destruct HIn as [[= <- <-]|[]].
    split; [reflexivity|]. split; [now left|]. now exists [].
  - destruct HIn as [[=]|HIn].
    destruct (IH _ _ HIn) as (-> & HI & t0 & ->).
    split; [reflexivity|]. split; [now right|].
    now exists (disk.EvRetrieve id (inr o) :: t0).
  - destruct HIn as [[=]|[[=]|[]]].
  - destruct HIn as [[=]|[[=]|HIn]].
    destruct (IH _ _ HIn) as (-> & HI & t0 & ->).
    split; [reflexivity|]. split; [now right|].
    now exists (disk.EvRetrieve id (inr o)
                :: disk.EvListAttachedTags id (inr tg) :: t0).
Qed.

(** The loop only ever calls [Retrieve] and [ListAttachedTags]. *)
Lemma loop_run_per_id c m fnf ids objs w x w' t :
  spec.loop_run Quote c m fnf ids objs w x w' t ->
  forallb spec.is_per_id t = true.
Proof. induction 1; simpl; auto. Qed.

(** Without [-T] the loop looks up no tags. *)
Lemma loop_run_no_tag_lookup c m fnf ids objs w x w' t :
  spec.loop_run Quote c m fnf ids objs w x w' t ->
  disk.tags c = false ->
  forall id y, ~ In (disk.EvListAttachedTags id y) t.
Proof.
  induction 1; intros ET key y HIn; simpl in HIn;
    repeat (destruct HIn as [HIn|HIn]; try discriminate);
    try contradiction; try congruence;
    match goal with IH : _ -> forall _ _, ~ In _ _ |- _ =>
      now apply (IH ET key y) end.
Qed.

(** With [-T] every successful [Retrieve] is directly followed by the tag
    lookup for the same ID. *)
Lemma loop_run_lookup_follows c m fnf ids objs w x w' t :
  spec.loop_run Quote c m fnf ids objs w x w' t ->
  disk.tags c = true ->
  forall t1 key o t2, t = t1 ++ disk.EvRetrieve key (inr o) :: t2 ->
  exists y t3, t2 = disk.EvListAttachedTags key y :: t3.
Proof.
  loop_run_cases;
    intros HT t1 key o' t2 E.
  - now destruct t1.
  - destruct t1 as [|a t1]; simpl in E; [discriminate|].
    injection E as _ E. eauto.
  - destruct t1 as [|a [|b t1]]; discriminate.
  - congruence.
  - destruct t1 as [|a [|b [|b' t1]]]; try discriminate.
    injection E as <- <- <-. eauto.
  - destruct t1 as [|a [|b t1]]; simpl in E.
    + injection E as <- <- <-. eauto.
    + discriminate.
    + injection E as _ _ E. eauto.
Qed.

(** Every tag lookup directly follows a successful [Retrieve] of the same
    ID. *)
Lemma loop_run_lookup_preceded c m fnf ids objs w x w' t :
  spec.loop_run Quote c m fnf ids objs w x w' t ->
  forall t1 key y t2, t = t1 ++ disk.EvListAttachedTags key y :: t2 ->
  exists t0 o, t1 = t0 ++ [disk.EvRetrieve key (inr o)].
Proof.
  loop_run_cases;
    intros t1 key y t2 E.
  - now destruct t1.
  - destruct t1 as [|a t1]; simpl in E; [discriminate|].
    injection E as <- E. destruct (IH _ _ _ _ E) as (t0 & o & ->).
    now exists (disk.EvRetrieve id (inl err) :: t0), o.
  - destruct t1 as [|a [|b t1]]; discriminate.
  - destruct t1 as [|a t1]; simpl in E; [discriminate|].
    injection E as <- E. destruct (IH _ _ _ _ E) as (t0 & o' & ->).
    now exists (disk.EvRetrieve id (inr o) :: t0), o'.
  - destruct t1 as [|a [|b [|b' t1]]]; try discriminate.
    injection E as <- <- <-. now exists [], o.
  - destruct t1 as [|a [|b t1]]; simpl in E.
    + discriminate.
    + injection E as <- <- <- <-. now exists [], o.
    + injection E as <- <- E. destruct (IH _ _ _ _ E) as (t0 & o' & ->).
      now exists (disk.EvRetrieve id (inr o)
                  :: disk.EvListAttachedTags id (inr tg) :: t0), o'.
Qed.

(** A failed tag lookup is the last call of the loop, which returns the
    lookup's error. *)
Lemma loop_run_lookup_failure c m fnf ids objs w x w' t :
  spec.loop_run Quote c m fnf ids objs w x w' t ->
  forall t1 key err t2,
    t = t1 ++ disk.EvListAttachedTags key (inl err) :: t2 ->
    t2 = [] /\ x = inl err.
Proof.
  loop_run_cases;
    intros t1 key err' t2 E.
  - now destruct t1.
  - destruct t1 as [|a t1]; simpl in E; [discriminate|].
    injection E as _ E. eauto.
  - destruct t1 as [|a [|b t1]]; discriminate.
  - destruct t1 as [|a t1]; simpl in E; [discriminate|].
    injection E as _ E. eauto.
  - destruct t1 as [|a [|b [|b' t1]]]; try discriminate.
    injection E as _ _ <- <-. auto.
  - destruct t1 as [|a [|b t1]]; simpl in E.
    + discriminate.
    + discriminate.
    + injection E as _ _ E. eauto.
Qed.

(** *** The blocks of [Run] *)

Lemma reconcile_unfold c m w :
  disk.reconcile c m w
  = if disk.r c then
      match disk.ReconcileDatastoreInventory m w with
      | (Some e, w1) => (inl e, w1, [disk.EvReconcileDatastoreInventory (Some e)])
      | (None, w1) => (inr tt, w1, [disk.EvReconcileDatastoreInventory None])
      end
    else (inr tt, w, []).
Proof. unfold disk.reconcile. now destruct (disk.r c). Qed.

Lemma reconcile_trace c m w x w1 t :
  disk.reconcile c m w = (x, w1, t) ->
  forallb spec.is_reconcile t = true
  /\ length t = (if disk.r c then 1 else 0).
Proof.
  rewrite reconcile_unfold. destruct (disk.r c).
  - destruct (disk.ReconcileDatastoreInventory m w) as [[e|] w2];
      intros [= <- <- <-]; now split.
  - intros [= <- <- <-]; now split.
Qed.

Lemma select_ids_explicit c m args w :
  args <> [] -> disk.select_ids c m args w = (inr (false, args), w, []).
Proof. destruct args; [congruence | reflexivity]. Qed.

Lemma select_ids_discovery c m w :
  disk.select_ids c m [] w
  = let '(x, w1) :=
      if String.eqb (disk.category c) "" then disk.List m w
      else disk.ListAttachedObjects m (disk.category c) (disk.tag c) w in
    (match x with
     | inl e => inl e
     | inr oids => inr (true, map types.ID_Id oids)
     end, w1, [spec.discovery_event c x]).
Proof.
  unfold disk.select_ids, disk.bind, spec.discovery_event.
  destruct (String.eqb (disk.category c) "").
  - unfold disk.call_List. now destruct (disk.List m w) as [[e|oids] w1].
  - unfold disk.call_ListAttachedObjects.
    now destruct (disk.ListAttachedObjects m _ _ w) as [[e|oids] w1].
Qed.

Lemma Run_result_unfold env c args w :
  disk.Run_result Quote env c args w
  = match disk.NewManagerFromFlag env w with
    | (inl e, w0) => (inl e, w0, [])
    | (inr m, w0) =>
      match disk.reconcile c m w0 with
      | (inl e, w1, t0) => (inl e, w1, t0)
      | (inr _, w1, t0) =>
        match disk.select_ids c m args w1 with
        | (inl e, w2, t1) => (inl e, w2, t0 ++ t1)
        | (inr sel, w2, t1) =>
          match disk.retrieve_loop Quote c m (fst sel) (snd sel) [] w2 with
          | (inl e, w3, t2) => (inl e, w3, t0 ++ t1 ++ t2)
          | (inr objs, w3, t2) =>
              (inr {| disk.cmd := c; disk.Objects := objs |}, w3,
               t0 ++ t1 ++ t2)
          end
        end
      end
    end.
Proof.
  unfold disk.Run_result, disk.bind, disk.lift, disk.ret.
  destruct (disk.NewManagerFromFlag env w) as [[e|m] w0]; [reflexivity|].
  destruct (disk.reconcile c m w0) as [[[e|[]] w1] t0]; [reflexivity|].
  destruct (disk.select_ids c m args w1) as [[[e|sel] w2] t1]; [reflexivity|].
  destruct (disk.retrieve_loop _ _ _ _ _ _ _) as [[[e|objs] w3] t2];
    simpl; now rewrite ?app_nil_r.
Qed.

Lemma Run_unfold env c args w :
  disk.Run Quote env c args w
  = match disk.Run_result Quote env c args w with
    | (inl e, w1, t) => (Some e, w1, t)
    | (inr res, w1, t) =>
        let '(x, w2) := disk.WriteResult env res w1 in (x, w2, t)
    end.
Proof.
  unfold disk.Run, disk.Run_M, disk.bind, disk.lift_err.
  destruct (disk.Run_result Quote env c args w) as [[[e|res] w1] t];
    [reflexivity|].
  destruct (disk.WriteResult env res w1) as [[e|] w2];
    now rewrite app_nil_r.
Qed.

Lemma forallb_In (P : disk.Event -> bool) t ev :
  forallb P t = true -> In ev t -> P ev = true.
Proof. intros H HIn. rewrite forallb_forall in H. now apply H. Qed.

Lemma Run_result_explicit env c args w :
  args <> [] ->
  disk.Run_result Quote env c args w
  = match disk.NewManagerFromFlag env w with
    | (inl e, w0) => (inl e, w0, [])
    | (inr m, w0) =>
      match disk.reconcile c m w0 with
      | (inl e, w1, t0) => (inl e, w1, t0)
      | (inr _, w1, t0) =>
        match disk.retrieve_loop Quote c m false args [] w1 with
        | (inl e, w2, t1) => (inl e, w2, t0 ++ t1)
        | (inr objs, w2, t1) =>
            (inr {| disk.cmd := c; disk.Objects := objs |}, w2, t0 ++ t1)
        end
      end
    end.
Proof.
  intros Hargs. rewrite Run_result_unfold.
  destruct (disk.NewManagerFromFlag env w) as [[e|m] w0]; [reflexivity|].
  destruct (disk.reconcile c m w0) as [[[e|[]] w1] t0]; [reflexivity|].
  now rewrite select_ids_explicit.
Qed.

(** *** Explicit IDs *)

(** C1: when IDs are given as arguments, a [Retrieve] that fails on one of
    them, whatever the failure and whatever [-a], is the last call of the
    run, and [Run] returns a non-nil error whose text is the failure's text
    prefixed with the quoted ID. *)
Theorem explicit_id_retrieve_failure_is_fatal env c args w id err :
  args <> [] ->
  In (disk.EvRetrieve id (inl err)) (snd (disk.Run Quote env c args w)) ->
  exists w' t0,
    disk.Run Quote env c args w
    = (Some (disk.Errorf_retrieve Quote id err), w',
       t0 ++ [disk.EvRetrieve id (inl err)])
    /\ In id args
    /\ Error (disk.Errorf_retrieve Quote id err)
       = ("retrieve " ++ Quote id ++ ": " ++ Error err)%string.
Proof.
  intros Hargs. rewrite Run_unfold, (Run_result_explicit _ _ _ _ Hargs).
  destruct (disk.NewManagerFromFlag env w) as [[e|m] w0]; [intros []|].
  destruct (disk.reconcile c m w0) as [[[e|[]] w1] t0] eqn:ER.
  - simpl. intros HIn. apply reconcile_trace in ER as [ER _].
    now apply (forallb_In _ _ _ ER) in HIn.
  - apply reconcile_trace in ER as [ER _].
    destruct (disk.retrieve_loop _ _ _ _ _ _ _) as [[x w2] t1] eqn:EL.
    apply loop_run_complete in EL.
    assert (HIn1 : In (disk.EvRetrieve id (inl err)) (t0 ++ t1) ->
                   In (disk.EvRetrieve id (inl err)) t1).
    { intros HIn. apply in_app_or in HIn as [HIn|HIn]; [|assumption].
      now apply (forallb_In _ _ _ ER) in HIn. }
    assert (HIn2 : snd (match x with
                        | inl e => (Some e, w2, t0 ++ t1)
                        | inr objs =>
                            let '(y, w3) :=
                              disk.WriteResult env
                                {| disk.cmd := c; disk.Objects := objs |} w2 in
                            (y, w3, t0 ++ t1)
                        end) = t0 ++ t1).
    { destruct x; [reflexivity|]. now destruct (disk.WriteResult _ _ _). }
    destruct x as [e|objs]; simpl; intros HIn.
    + apply HIn1 in HIn.
      destruct (loop_run_unfiltered_failure _ _ _ _ _ _ _ _ EL _ _ HIn)
        as ([= ->] & HI & t2 & ->).
      exists w2, (t0 ++ t2). rewrite app_assoc. auto.
    + rewrite HIn2 in HIn. apply HIn1 in HIn.
      now destruct (loop_run_unfiltered_failure _ _ _ _ _ _ _ _ EL _ _ HIn)
        as ([=] & _).
Qed.

(** *** Reconciliation and discovery *)

Lemma filter_none (P Q : disk.Event -> bool) t :
  forallb P t = true -> (forall ev, P ev = true -> Q ev = false) ->
  filter Q t = [].
Proof.
  intros HP HPQ. induction t as [|ev t IH]; [reflexivity|].
  simpl in *. apply andb_prop in HP as [Hev HP].
  now rewrite (HPQ _ Hev), IH.
Qed.

Lemma loop_trace_per_id c m fnf ids objs w x w' t :
  disk.retrieve_loop Quote c m fnf ids objs w = (x, w', t) ->
  forallb spec.is_per_id t = true.
Proof.
  intros EL. apply loop_run_complete in EL.
  eapply loop_run_per_id; eassumption.
Qed.

Lemma per_id_not_discovery ev :
  spec.is_per_id ev = true -> spec.is_discovery ev = false.
Proof. now destruct ev. Qed.

Lemma per_id_not_reconcile ev :
  spec.is_per_id ev = true -> spec.is_reconcile ev = false.
Proof. now destruct ev. Qed.

Lemma reconcile_not_discovery ev :
  spec.is_reconcile ev = true -> spec.is_discovery ev = false.
Proof. now destruct ev. Qed.

Lemma discovery_event_kind c x :
  spec.is_discovery (spec.discovery_event c x) = true
  /\ spec.is_reconcile (spec.discovery_event c x) = false.
Proof.
  unfold spec.discovery_event.
  now destruct (String.eqb (disk.category c) "").
Qed.

Lemma Run_trace env c args w :
  snd (disk.Run Quote env c args w)
  = snd (disk.Run_result Quote env c args w).
Proof.
  rewrite Run_unfold.
  destruct (disk.Run_result Quote env c args w) as [[[e|res] w1] t];
    [reflexivity|].
  now destruct (disk.WriteResult env res w1).
Qed.

Lemma select_ids_discovery_call c m w :
  disk.select_ids c m [] w
  = let '(x, w1) := spec.discovery_call c m w in
    (match x with
     | inl e => inl e
     | inr oids => inr (true, map types.ID_Id oids)
     end, w1, [spec.discovery_event c x]).
Proof.
  rewrite select_ids_discovery. unfold spec.discovery_call.
  now destruct (String.eqb (disk.category c) "").
Qed.

(** C3: in a run without ID arguments that gets past the acquisition of
    the manager and the reconciliation, exactly one discovery call is made:
    [ListAttachedObjects(category, tag)] when the category is not empty,
    [List] otherwise.  When it fails, [Run] returns its error at once; when
    it answers, the run goes on as the iteration over the IDs it answered,
    in their order. *)
Theorem empty_args_discover_exactly_once env c w m w0 w1 t0 :
  disk.NewManagerFromFlag env w = (inr m, w0) ->
  disk.reconcile c m w0 = (inr tt, w1, t0) ->
  exists x w2,
    (if String.eqb (disk.category c) "" then disk.List m w1
     else disk.ListAttachedObjects m (disk.category c) (disk.tag c) w1)
    = (x, w2)
    /\ filter spec.is_discovery (snd (disk.Run Quote env c [] w))
       = [if String.eqb (disk.category c) "" then disk.EvList x
          else disk.EvListAttachedObjects (disk.category c) (disk.tag c) x]
    /\ match x with
       | inl e =>
           disk.Run Quote env c [] w
           = (Some e, w2, t0 ++ [spec.discovery_event c x])
       | inr oids =>
           disk.Run_result Quote env c [] w
           = let '(y, w3, t2) :=
               disk.retrieve_loop Quote c m true (map types.ID_Id oids) [] w2 in
             (spec.as_result c y, w3, t0 ++ spec.discovery_event c x :: t2)
       end.
Proof.
  intros EM ER.
  destruct (spec.discovery_call c m w1) as [x w2] eqn:ED.
  exists x, w2. split.
  { revert ED. unfold spec.discovery_call.
    now destruct (String.eqb (disk.category c) ""). }
  fold (spec.discovery_event c x).
  rewrite Run_trace, Run_unfold, Run_result_unfold, EM, ER,
    select_ids_discovery_call, ED.
  apply reconcile_trace in ER as [ER _].
  pose proof (filter_none _ _ _ ER reconcile_not_discovery) as F0.
  destruct (discovery_event_kind c x) as [KD _].
  destruct x as [e|oids].
  - simpl. rewrite filter_app, F0. simpl. now rewrite KD.
  - simpl fst; simpl snd.
    destruct (disk.retrieve_loop Quote c m true _ [] w2)
      as [[[e|objs] w3] t2] eqn:EL;
      apply loop_trace_per_id in EL;
      pose proof (filter_none _ _ _ EL per_id_not_discovery) as F2;
      simpl; rewrite filter_app, F0; simpl; now rewrite KD, F2.
Qed.

(** C4: without [-R] no run ever calls [ReconcileDatastoreInventory]; with
    [-R], once the manager is acquired, that call is the first call of the
    run and is made only once, and when it fails [Run] returns its error
    having made no other call. *)
Theorem reconcile_called_once_and_first env c args w :
  (disk.r c = false ->
   filter spec.is_reconcile (snd (disk.Run Quote env c args w)) = [])
  /\ (disk.r c = true ->
      forall m w0, disk.NewManagerFromFlag env w = (inr m, w0) ->
      exists x w1 rest,
        disk.ReconcileDatastoreInventory m w0 = (x, w1)
        /\ snd (disk.Run Quote env c args w)
           = disk.EvReconcileDatastoreInventory x :: rest
        /\ filter spec.is_reconcile rest = []
        /\ forall e, x = Some e ->
             disk.Run Quote env c args w
             = (Some e, w1, [disk.EvReconcileDatastoreInventory (Some e)])).
Proof.
  assert (tail_clean : forall m w1 x w2 t1,
            disk.select_ids c m args w1 = (x, w2, t1) ->
            filter spec.is_reconcile t1 = []).
  { intros m w1 x w2 t1. destruct args as [|a args'].
    - rewrite select_ids_discovery_call.
      destruct (spec.discovery_call c m w1) as [y w3].
      intros [= <- <- <-]. simpl.
      now destruct (discovery_event_kind c y) as [_ ->].
    - rewrite select_ids_explicit by discriminate. now intros [= <- <- <-]. }
  assert (rest_clean : forall m w1,
            filter spec.is_reconcile
              (snd (match disk.select_ids c m args w1 with
                    | (inl e, w2, t1) => (inl e, w2, t1)
                    | (inr sel, w2, t1) =>
                      match disk.retrieve_loop Quote c m (fst sel) (snd sel)
                              [] w2 with
                      | (inl e, w3, t2) => (inl e, w3, t1 ++ t2)
                      | (inr objs, w3, t2) =>
                          (inr {| disk.cmd := c; disk.Objects := objs |}, w3,
                           t1 ++ t2)
                      end
                    end)) = []).
  { intros m w1.
    destruct (disk.select_ids c m args w1) as [[[e|sel] w2] t1] eqn:ES;
      apply tail_clean in ES; [exact ES|].
    destruct (disk.retrieve_loop _ _ _ _ _ _ _) as [[[e|objs] w3] t2] eqn:EL;
      apply loop_trace_per_id in EL;
      pose proof (filter_none _ _ _ EL per_id_not_reconcile) as F2;
      simpl; now rewrite filter_app, ES, F2. }
  rewrite Run_trace, Run_unfold, Run_result_unfold. split.
  - intros ER.
    destruct (disk.NewManagerFromFlag env w) as [[e|m] w0]; [reflexivity|].
    rewrite reconcile_unfold, ER.
    specialize (rest_clean m w0).
    destruct (disk.select_ids c m args w0) as [[[e|sel] w2] t1];
      [exact rest_clean|].
    destruct (disk.retrieve_loop _ _ _ _ _ _ _) as [[[e|objs] w3] t2];
      exact rest_clean.
  - intros ER m w0 ->. rewrite reconcile_unfold, ER.
    destruct (disk.ReconcileDatastoreInventory m w0) as [[e|] w1].
    + exists (Some e), w1, []. repeat split. now intros e' [= <-].
    + specialize (rest_clean m w1).
      destruct (disk.select_ids c m args w1) as [[[e|sel] w2] t1].
      * exists None, w1, t1. repeat split; [exact rest_clean | discriminate].
      * destruct (disk.retrieve_loop _ _ _ _ _ _ _) as [[[e|objs] w3] t2];
          exists None, w1, (t1 ++ t2);
          (repeat split; [exact rest_clean | discriminate]).
Qed.

(** *** The shape of a run *)

Lemma reconcile_not_per_id t :
  forallb spec.is_reconcile t = true -> forallb spec.not_per_id t = true.
Proof.
  induction t as [|ev t IH]; simpl; [reflexivity|].
  intros H. apply andb_prop in H as [Hev H].
  rewrite (IH H). now destruct ev.
Qed.

Lemma discovery_event_not_per_id c x :
  spec.not_per_id (spec.discovery_event c x) = true.
Proof.
  unfold spec.discovery_event.
  now destruct (String.eqb (disk.category c) "").
Qed.

(** A run either stops before the loop, having made no per-ID call, or is
    the loop over the selected IDs after a prefix without per-ID calls. *)
Lemma Run_result_shape env c args w :
  (exists e w1 P,
      disk.Run_result Quote env c args w = (inl e, w1, P)
      /\ forallb spec.not_per_id P = true)
  \/ (exists m w2 P ids x w3 L,
        forallb spec.not_per_id P = true
        /\ disk.retrieve_loop Quote c m (spec.filters_not_found args) ids []
             w2 = (x, w3, L)
        /\ disk.Run_result Quote env c args w
           = (spec.as_result c x, w3, P ++ L)
        /\ (args <> [] -> ids = args)
        /\ (args = [] ->
            exists oids, In (spec.discovery_event c (inr oids)) P
                         /\ ids = map types.ID_Id oids)).
Proof.
  rewrite Run_result_unfold.
  destruct (disk.NewManagerFromFlag env w) as [[e|m] w0].
  { left. now exists e, w0, []. }
  destruct (disk.reconcile c m w0) as [[[e|[]] w1] t0] eqn:ER;
    apply reconcile_trace in ER as [ER _]; apply reconcile_not_per_id in ER.
  { left. now exists e, w1, t0. }
  destruct args as [|a args'].
  - rewrite select_ids_discovery_call.
    destruct (spec.discovery_call c m w1) as [[e|oids] w2].
    + left. exists e, w2, (t0 ++ [spec.discovery_event c (inl e)]).
      split; [reflexivity|].
      rewrite forallb_app, ER. simpl.
      now rewrite discovery_event_not_per_id.
    + right. simpl fst; simpl snd.
      destruct (disk.retrieve_loop Quote c m true (map types.ID_Id oids) [] w2)
        as [[x w3] L] eqn:EL.
      exists m, w2, (t0 ++ [spec.discovery_event c (inr oids)]),
        (map types.ID_Id oids), x, w3, L.
      split.
      { rewrite forallb_app, ER. simpl.
        now rewrite discovery_event_not_per_id. }
      split; [exact EL|]. split.
      { rewrite <- app_assoc. now destruct x. }
      split; [congruence|].
      intros _. exists oids. split; [|reflexivity].
      apply in_or_app. right. now left.
  - rewrite select_ids_explicit by discriminate. right. simpl fst; simpl snd.
    destruct (disk.retrieve_loop Quote c m false (a :: args') [] w1)
      as [[x w3] L] eqn:EL.
    exists m, w1, t0, (a :: args'), x, w3, L.
    split; [exact ER|]. split; [exact EL|]. split; [now destruct x|].
    split; [reflexivity | discriminate].
Qed.

Lemma Run_shape env c args w :
  (exists e w1 P,
      disk.Run Quote env c args w = (Some e, w1, P)
      /\ forallb spec.not_per_id P = true)
  \/ (exists m w2 P ids x w3 L out w4,
        forallb spec.not_per_id P = true
        /\ disk.retrieve_loop Quote c m (spec.filters_not_found args) ids []
             w2 = (x, w3, L)
        /\ disk.Run_result Quote env c args w
           = (spec.as_result c x, w3, P ++ L)
        /\ disk.Run Quote env c args w = (out, w4, P ++ L)
        /\ (forall e, x = inl e -> out = Some e)
        /\ (forall objs, x = inr objs ->
            disk.WriteResult env {| disk.cmd := c; disk.Objects := objs |} w3
            = (out, w4))
        /\ (args <> [] -> ids = args)
        /\ (args = [] ->
            exists oids, In (spec.discovery_event c (inr oids)) P
                         /\ ids = map types.ID_Id oids)).
Proof.
  rewrite Run_unfold.
  destruct (Run_result_shape env c args w)
    as [(e & w1 & P & -> & HP)
       |(m & w2 & P & ids & x & w3 & L & HP & EL & ER & Hargs)].
  - left. now exists e, w1, P.
  - right. rewrite ER. destruct x as [e|objs]; simpl.
    + exists m, w2, P, ids, (inl e), w3, L, (Some e), w3.
      repeat split; try tauto; try congruence.
    + destruct (disk.WriteResult env _ w3) as [out w4] eqn:EW.
      exists m, w2, P, ids, (inr objs), w3, L, out, w4.
      repeat split; try tauto; try congruence.
Qed.

(** A call that is made per ID lies in the loop's part of the trace. *)
Lemma split_after_prefix P L A ev B :
  forallb spec.not_per_id P = true ->
  spec.is_per_id ev = true ->
  P ++ L = A ++ ev :: B ->
  exists A', A = P ++ A' /\ L = A' ++ ev :: B.
Proof.
  intros HP Hev. revert A.
  induction P as [|p P IH]; intros A E; simpl in *.
  - now exists A.
  - apply andb_prop in HP as [Hp HP].
    destruct A as [|a A]; simpl in E.
    + injection E as -> _. unfold spec.not_per_id in Hp.
      now rewrite Hev in Hp.
    + injection E as <- E. destruct (IH HP _ E) as (A' & -> & ->).
      now exists A'.
Qed.

Lemma not_per_id_In P ev :
  forallb spec.not_per_id P = true -> spec.is_per_id ev = true -> ~ In ev P.
Proof.
  intros HP Hev HIn. apply (forallb_In _ _ _ HP) in HIn.
  unfold spec.not_per_id in HIn. now rewrite Hev in HIn.
Qed.

(** *** Tag lookups *)

(** C5: without [-T] no run looks up tags.  With [-T], in every run each
    successful [Retrieve] is directly followed by [ListAttachedTags] for
    the same ID, and each [ListAttachedTags] directly follows a successful
    [Retrieve] of its ID, so that the lookups are exactly one per retrieved
    object and none goes to a placeholder; a lookup that fails is the last
    call of the run and [Run] returns its error. *)
Theorem tag_lookup_once_per_retrieved_object env c args w :
  (disk.tags c = false ->
   forall id y,
     ~ In (disk.EvListAttachedTags id y) (snd (disk.Run Quote env c args w)))
  /\ (disk.tags c = true ->
      forall t1 id o t2,
        snd (disk.Run Quote env c args w)
        = t1 ++ disk.EvRetrieve id (inr o) :: t2 ->
        exists y t3, t2 = disk.EvListAttachedTags id y :: t3)
  /\ (forall t1 id y t2,
        snd (disk.Run Quote env c args w)
        = t1 ++ disk.EvListAttachedTags id y :: t2 ->
        exists t0 o, t1 = t0 ++ [disk.EvRetrieve id (inr o)])
  /\ (forall t1 id err t2,
        snd (disk.Run Quote env c args w)
        = t1 ++ disk.EvListAttachedTags id (inl err) :: t2 ->
        t2 = [] /\ fst (fst (disk.Run Quote env c args w)) = Some err).
Proof.
  destruct (Run_shape env c args w)
    as [(e & w1 & P & -> & HP)
       |(m & w2 & P & ids & x & w3 & L & out & w4 & HP & EL & _ & -> & Herr
         & _)]; simpl fst; simpl snd.
  - assert (none : forall ev A B,
              spec.is_per_id ev = true -> P <> A ++ ev :: B).
    { intros ev A B Hev E. apply (not_per_id_In P ev HP Hev).
      rewrite E. apply in_or_app. right. now left. }
    split; [|split; [|split]].
    + intros _ id y. now apply not_per_id_In.
    + intros _ t1 id o t2 E. now apply none in E.
    + intros t1 id y t2 E. now apply none in E.
    + intros t1 id err t2 E. now apply none in E.
  - apply loop_run_complete in EL.
    split; [|split; [|split]].
    + intros HT id y HIn. apply in_app_or in HIn as [HIn|HIn].
      * now apply (not_per_id_In P (disk.EvListAttachedTags id y)).
      * now apply (loop_run_no_tag_lookup _ _ _ _ _ _ _ _ _ EL HT id y).
    + intros HT t1 id o t2 E.
      apply split_after_prefix in E as (A' & -> & E); auto.
      eapply loop_run_lookup_follows; eassumption.
    + intros t1 id y t2 E.
      apply split_after_prefix in E as (A' & -> & E); auto.
      destruct (loop_run_lookup_preceded _ _ _ _ _ _ _ _ _ EL _ _ _ _ E)
        as (t0 & o & ->).
      exists (P ++ t0), o. now rewrite app_assoc.
    + intros t1 id err t2 E.
      apply split_after_prefix in E as (A' & -> & E); auto.
      destruct (loop_run_lookup_failure _ _ _ _ _ _ _ _ _ EL _ _ _ _ E)
        as [-> Hx].
      split; [reflexivity | now apply Herr].
Qed.

(** *** The result and the sequence of IDs *)

Lemma retrievals_app t1 t2 :
  spec.retrievals (t1 ++ t2) = spec.retrievals t1 ++ spec.retrievals t2.
Proof.
  induction t1 as [|ev t1 IH]; [reflexivity|].
  destruct ev; simpl; now rewrite IH.
Qed.

Lemma retrievals_prefix P :
  forallb spec.not_per_id P = true -> spec.retrievals P = [].
Proof.
  induction P as [|ev P IH]; [reflexivity|]. simpl.
  intros H. apply andb_prop in H as [Hev H].
  destruct ev; try discriminate; now apply IH.
Qed.

(** Every ID of the iteration is retrieved once, in order, and a loop that
    goes through has appended at most one entry per retrieval. *)
Lemma loop_run_entries c m args ids objs w x w' t :
  spec.loop_run Quote c m (spec.filters_not_found args) ids objs w x w' t ->
  forall res, x = inr res ->
  exists entries,
    res = objs ++ flat_map spec.present entries
    /\ Forall2 (spec.entry_of c args) (spec.retrievals t) entries
    /\ map fst (spec.retrievals t) = ids.
Proof.
  loop_run_cases;
    intros res Ex.
  - injection Ex as <-. exists []. simpl. now rewrite app_nil_r.
  - destruct (IH _ Ex) as (entries & -> & HF & Hids).
    exists ((if disk.all c then Some (disk.placeholder id) else None)
            :: entries).
    split; [|split].
    + destruct (disk.all c); simpl; [now rewrite <- app_assoc | reflexivity].
    + simpl. constructor; [|exact HF].
      unfold spec.entry_of. simpl. repeat split; [|exact ENF].
      now destruct args.
    + simpl. now rewrite Hids.
  - discriminate.
  - destruct (IH _ Ex) as (entries & -> & HF & Hids).
    exists (Some (disk.mkVStorageObject o []) :: entries).
    split; [|split].
    + simpl. now rewrite <- app_assoc.
    + simpl. constructor; [|exact HF].
      unfold spec.entry_of. simpl. eexists; repeat split.
    + simpl. now rewrite Hids.
  - discriminate.
  - destruct (IH _ Ex) as (entries & -> & HF & Hids).
    exists (Some (disk.mkVStorageObject o tg) :: entries).
    split; [|split].
    + simpl. now rewrite <- app_assoc.
    + simpl. constructor; [|exact HF].
      unfold spec.entry_of. simpl. eexists; repeat split. congruence.
    + simpl. now rewrite Hids.
Qed.

Lemma retrievals_In id x t :
  In (id, x) (spec.retrievals t) -> In (disk.EvRetrieve id x) t.
Proof.
  induction t as [|ev t IH]; [intros []|].
  destruct ev; simpl; auto.
  intros [[= <- <-]|HIn]; auto.
Qed.

(** Under a manager that answers [Retrieve] with the object asked for,
    each entry carries the ID it was made for. *)
Lemma entries_carry_their_id c args calls entries :
  Forall2 (spec.entry_of c args) calls entries ->
  (forall id o, In (id, inr o) calls ->
                spec.object_id (disk.mkVStorageObject o []) = id) ->
  Forall2 (fun id entry =>
             forall obj, entry = Some obj -> spec.object_id obj = id)
          (map fst calls) entries.
Proof.
  induction 1 as [|[id x] entry calls entries Hentry HF IH]; intros Hid.
  - constructor.
  - simpl. constructor.
    + intros obj ->. unfold spec.entry_of in Hentry. simpl in Hentry.
      destruct x as [err|o].
      * destruct Hentry as (_ & _ & E).
        destruct (disk.all c); [now injection E as -> | discriminate].
      * destruct Hentry as (obj' & [= <-] & <- & _).
        apply (Hid id (disk.Object obj)). now left.
    + apply IH. intros id' o HIn. apply Hid. now right.
Qed.

(** C7: when [Run] returns nil, the result it handed to [WriteResult] is
    laid out along the sequence of IDs (the arguments, or else the IDs the
    discovery call answered): every ID of the sequence was retrieved once,
    in order, and the objects are, in that order, what each retrieval
    contributed, namely the retrieved object, or for a not-found answer of
    a run without arguments the placeholder with [-a] and nothing without
    [-a].  When every object the manager answered has the ID it was asked
    for, every entry has the ID of its place in the sequence. *)
Theorem result_follows_id_sequence env c args w w' t :
  disk.Run Quote env c args w = (None, w', t) ->
  exists res w1 ids entries,
    disk.Run_result Quote env c args w = (inr res, w1, t)
    /\ disk.WriteResult env res w1 = (None, w')
    /\ (args <> [] -> ids = args)
    /\ (args = [] ->
        exists oids, In (spec.discovery_event c (inr oids)) t
                     /\ ids = map types.ID_Id oids)
    /\ map fst (spec.retrievals t) = ids
    /\ Forall2 (spec.entry_of c args) (spec.retrievals t) entries
    /\ disk.Objects res = flat_map spec.present entries
    /\ ((forall id o, In (disk.EvRetrieve id (inr o)) t ->
                      types.ID_Id (types.Id (types.Base (types.Config o))) = id)
        -> Forall2 (fun id entry =>
                      forall obj, entry = Some obj -> spec.object_id obj = id)
                   ids entries).
Proof.
  destruct (Run_shape env c args w)
    as [(e & w1 & P & -> & HP)
       |(m & w2 & P & ids & x & w3 & L & out & w4 & HP & EL & ER & -> & Herr
         & Hout & Hexp & Hdisc)]; [discriminate|].
  intros [= -> -> <-].
  destruct x as [e|objs]; [now specialize (Herr e eq_refl)|].
  apply loop_run_complete in EL.
  destruct (loop_run_entries _ _ _ _ _ _ _ _ _ EL objs eq_refl)
    as (entries & Hobjs & HF & Hids).
  exists {| disk.cmd := c; disk.Objects := objs |}, w3, ids, entries.
  rewrite retrievals_app, (retrievals_prefix P HP). simpl.
  split; [exact ER|]. split; [now apply Hout|]. split; [exact Hexp|].
  split.
  { intros Hargs. destruct (Hdisc Hargs) as (oids & HIn & ->).
    exists oids. split; [|reflexivity]. apply in_or_app. now left. }
  split; [exact Hids|]. split; [exact HF|]. split; [exact Hobjs|].
  intros Hfaithful. rewrite <- Hids.
  apply (entries_carry_their_id c args _ _ HF).
  intros id o HIn. apply Hfaithful.
  apply in_or_app. right. now apply retrievals_In.
Qed.

(** *** Not-found answers during discovery *)

(** A discovery run that reaches an ID whose retrieval answers not-found
    goes on with the IDs after it. *)
Lemma Run_result_resume env c w m w0 w1 t0 ids1 id ids2 w2 t1 objs1 w3 t2
    err w4 :
  disk.NewManagerFromFlag env w = (inr m, w0) ->
  disk.reconcile c m w0 = (inr tt, w1, t0) ->
  disk.select_ids c m [] w1 = (inr (true, ids1 ++ id :: ids2), w2, t1) ->
  disk.retrieve_loop Quote c m true ids1 [] w2 = (inr objs1, w3, t2) ->
  disk.Retrieve m id w3 = (inl err, w4) ->
  fault_Is_NotFound err = true ->
  disk.Run_result Quote env c [] w
  = let '(x, w5, t3) :=
      disk.retrieve_loop Quote c m true ids2
        (if disk.all c then objs1 ++ [disk.placeholder id] else objs1) w4 in
    (spec.as_result c x, w5,
     t0 ++ t1 ++ t2 ++ disk.EvRetrieve id (inl err) :: t3).
Proof.
  intros EM ER ES EL ERet ENF.
  rewrite Run_result_unfold, EM, ER, ES. simpl fst; simpl snd.
  rewrite (loop_app _ _ _ _ _ _ _ _ _ _ EL), loop_cons, ERet, ENF.
  simpl andb. cbv iota.
  destruct (disk.retrieve_loop Quote c m true ids2 _ w4) as [[[e|objs] w5] t3];
    reflexivity.
Qed.

(** The first call of the loop, if any, is a [Retrieve]. *)
Lemma loop_run_head c m fnf ids objs w x w' t :
  spec.loop_run Quote c m fnf ids objs w x w' t ->
  forall id y rest, t <> disk.EvListAttachedTags id y :: rest.
Proof. destruct 1; intros; discriminate. Qed.

(** *** The tag query *)

Lemma loop_with_query cat tg c m fnf ids : forall objs w,
  disk.retrieve_loop Quote (spec.with_query cat tg c) m fnf ids objs w
  = disk.retrieve_loop Quote c m fnf ids objs w.
Proof.
  induction ids as [|id ids IH]; intros objs w; [reflexivity|].
  rewrite !loop_cons. simpl disk.all. simpl disk.tags.
  destruct (disk.Retrieve m id w) as [[err|o] w1].
  - now rewrite IH.
  - destruct (disk.tags c); [|now rewrite IH].
    destruct (disk.ListAttachedTags m id w1) as [[err|tg'] w2];
      [reflexivity | now rewrite IH].
Qed.

Lemma select_ids_unfiltered tg c m w :
  disk.category c = "" ->
  disk.select_ids (spec.with_query "" tg c) m [] w = disk.select_ids c m [] w.
Proof.
  intros Ecat. rewrite !select_ids_discovery. simpl disk.category.
  rewrite Ecat. simpl. unfold spec.discovery_event. simpl disk.category.
  now rewrite Ecat.
Qed.

Lemma objects_of_Run_result env c c' args w :
  (forall m w1, disk.reconcile c' m w1 = disk.reconcile c m w1) ->
  (forall m w1, disk.select_ids c' m args w1 = disk.select_ids c m args w1) ->
  (forall m fnf ids objs w1,
      disk.retrieve_loop Quote c' m fnf ids objs w1
      = disk.retrieve_loop Quote c m fnf ids objs w1) ->
  spec.objects_of (disk.Run_result Quote env c' args w)
  = spec.objects_of (disk.Run_result Quote env c args w).
Proof.
  intros ER ES EL. rewrite !Run_result_unfold.
  destruct (disk.NewManagerFromFlag env w) as [[e|m] w0]; [reflexivity|].
  rewrite ER.
  destruct (disk.reconcile c m w0) as [[[e|[]] w1] t0]; [reflexivity|].
  rewrite ES.
  destruct (disk.select_ids c m args w1) as [[[e|sel] w2] t1]; [reflexivity|].
  rewrite EL.
  now destruct (disk.retrieve_loop _ _ _ _ _ _ _) as [[[e|objs] w3] t2].
Qed.

Lemma select_ids_trace c m args w x w1 t1 :
  disk.select_ids c m args w = (x, w1, t1) ->
  t1 = [] \/ (args = [] /\ exists y, t1 = [spec.discovery_event c y]).
Proof.
  destruct args as [|a args'].
  - rewrite select_ids_discovery_call.
    destruct (spec.discovery_call c m w) as [y w2].
    intros [= <- <- <-]. right. eauto.
  - rewrite select_ids_explicit by discriminate.
    intros [= <- <- <-]. now left.
Qed.

(** The calls of a run: reconciliation, then discovery, then the per-ID
    calls. *)
Lemma Run_trace_parts env c args w :
  exists t0 t1 t2,
    snd (disk.Run Quote env c args w) = t0 ++ t1 ++ t2
    /\ forallb spec.is_reconcile t0 = true
    /\ (t1 = [] \/ (args = [] /\ exists y, t1 = [spec.discovery_event c y]))
    /\ forallb spec.is_per_id t2 = true.
Proof.
  rewrite Run_trace, Run_result_unfold.
  destruct (disk.NewManagerFromFlag env w) as [[e|m] w0].
  { exists [], [], []. simpl. auto. }
  destruct (disk.reconcile c m w0) as [[[e|[]] w1] t0] eqn:ER;
    apply reconcile_trace in ER as [ER _].
  { exists t0, [], []. simpl. rewrite app_nil_r. auto. }
  destruct (disk.select_ids c m args w1) as [[[e|sel] w2] t1] eqn:ES;
    apply select_ids_trace in ES.
  { exists t0, t1, []. simpl. rewrite app_nil_r. auto. }
  destruct (disk.retrieve_loop _ _ _ _ _ _ _) as [[[e|objs] w3] t2] eqn:EL;
    apply loop_trace_per_id in EL; exists t0, t1, t2; simpl; auto.
Qed.

(** The only discovery call a run can make is the one its flags select,
    and a run with ID arguments makes none. *)
Lemma Run_discovery_events env c args w ev :
  In ev (snd (disk.Run Quote env c args w)) ->
  spec.is_discovery ev = true ->
  args = [] /\ exists x, ev = spec.discovery_event c x.
Proof.
  destruct (Run_trace_parts env c args w)
    as (t0 & t1 & t2 & -> & H0 & H1 & H2).
  intros HIn Hev.
  apply in_app_or in HIn as [HIn|HIn].
  { apply (forallb_In _ _ _ H0) in HIn.
    now rewrite (reconcile_not_discovery _ HIn) in Hev. }
  apply in_app_or in HIn as [HIn|HIn].
  - destruct H1 as [->|(-> & y & ->)]; [contradiction|].
    destruct HIn as [<-|[]]. eauto.
  - apply (forallb_In _ _ _ H2) in HIn.
    now rewrite (per_id_not_discovery _ HIn) in Hev.
Qed.

(** The discovery call of a run without ID arguments that gets to the
    discovery block. *)
Lemma Run_discovery_filter env c w m w0 w1 t0 :
  disk.NewManagerFromFlag env w = (inr m, w0) ->
  disk.reconcile c m w0 = (inr tt, w1, t0) ->
  filter spec.is_discovery (snd (disk.Run Quote env c [] w))
  = [spec.discovery_event c (fst (spec.discovery_call c m w1))].
Proof.
  intros EM ER.
  rewrite Run_trace, Run_result_unfold, EM, ER, select_ids_discovery_call.
  apply reconcile_trace in ER as [ER _].
  pose proof (filter_none _ _ _ ER reconcile_not_discovery) as F0.
  destruct (spec.discovery_call c m w1) as [x w2]. simpl fst.
  destruct (discovery_event_kind c x) as [KD _].
  destruct x as [e|oids].
  - simpl. rewrite filter_app, F0. simpl. now rewrite KD.
  - simpl fst; simpl snd.
    destruct (disk.retrieve_loop Quote c m true _ [] w2)
      as [[[e|objs] w3] t2] eqn:EL;
      apply loop_trace_per_id in EL;
      pose proof (filter_none _ _ _ EL per_id_not_discovery) as F2;
      simpl; rewrite filter_app, F0; simpl; now rewrite KD, F2.
Qed.

(** C9: in a run without ID arguments the listing used depends on the
    category alone.  With an empty category the tag is ignored: the run is
    the same for every tag, never calls [ListAttachedObjects], and once it
    gets to the discovery block its one discovery call is [List], whatever
    the tag.  With a non-empty category [List] is never called, and the one
    discovery call is [ListAttachedObjects] with the category and the tag.
    In a run with ID arguments the category and the tag change neither the
    objects of the result, nor the error, nor the calls made, none of which
    is a discovery call. *)
Theorem query_flags_matter_only_through_category env c args w cat tg :
  (disk.category c = "" ->
   spec.objects_of (disk.Run_result Quote env (spec.with_query "" tg c) [] w)
   = spec.objects_of (disk.Run_result Quote env c [] w)
   /\ forall cat' tg' x,
       ~ In (disk.EvListAttachedObjects cat' tg' x)
            (snd (disk.Run Quote env c [] w)))
  /\ (disk.category c <> "" ->
      forall x, ~ In (disk.EvList x) (snd (disk.Run Quote env c [] w)))
  /\ (args <> [] ->
      spec.objects_of
        (disk.Run_result Quote env (spec.with_query cat tg c) args w)
      = spec.objects_of (disk.Run_result Quote env c args w)
      /\ filter spec.is_discovery (snd (disk.Run Quote env c args w)) = [])
  /\ (forall m w0 w1 t0,
        disk.NewManagerFromFlag env w = (inr m, w0) ->
        disk.reconcile c m w0 = (inr tt, w1, t0) ->
        (disk.category c = "" ->
         forall tg',
           filter spec.is_discovery
             (snd (disk.Run Quote env (spec.with_query "" tg' c) [] w))
           = [disk.EvList (fst (disk.List m w1))])
        /\ (disk.category c <> "" ->
            filter spec.is_discovery (snd (disk.Run Quote env c [] w))
            = [disk.EvListAttachedObjects (disk.category c) (disk.tag c)
                 (fst (disk.ListAttachedObjects m (disk.category c)
                         (disk.tag c) w1))])).
Proof.
  split; [|split; [|split]].
  - intros Ecat. split.
    + apply objects_of_Run_result.
      * reflexivity.
      * intros m w1. now apply select_ids_unfiltered.
      * intros m fnf ids objs w1. apply loop_with_query.
    + intros cat' tg' x HIn.
      destruct (Run_discovery_events _ _ _ _ _ HIn eq_refl) as (_ & y & E).
      unfold spec.discovery_event in E. rewrite Ecat in E. discriminate.
  - intros Ecat x HIn.
    destruct (Run_discovery_events _ _ _ _ _ HIn eq_refl) as (_ & y & E).
    unfold spec.discovery_event in E.
    destruct (String.eqb_spec (disk.category c) ""); [contradiction|].
    discriminate.
  - intros Hargs. split.
    + apply objects_of_Run_result.
      * reflexivity.
      * intros m w1. now rewrite !select_ids_explicit.
      * intros m fnf ids objs w1. apply loop_with_query.
    + assert (none : forall ev,
                In ev (snd (disk.Run Quote env c args w)) ->
                spec.is_discovery ev = false).
      { intros ev HIn. destruct (spec.is_discovery ev) eqn:Hev; [|reflexivity].
        now destruct (Run_discovery_events _ _ _ _ _ HIn Hev). }
      induction (snd (disk.Run Quote env c args w)) as [|ev t IH];
        [reflexivity|].
      simpl. rewrite (none ev) by now left.
      apply IH. intros ev' HIn. apply none. now right.
  - intros m w0 w1 t0 EM ER. split.
    + intros _ tg'.
      rewrite (Run_discovery_filter env (spec.with_query "" tg' c) w m w0 w1
                 t0 EM ER).
      reflexivity.
    + intros Ecat.
      rewrite (Run_discovery_filter env c w m w0 w1 t0 EM ER).
      unfold spec.discovery_event, spec.discovery_call.
      destruct (String.eqb_spec (disk.category c) ""); [contradiction|].
      reflexivity.
Qed.

(** *** Failures and where they come from *)

(** A failed retrieval that the loop does not tolerate ends it. *)
Lemma loop_run_untolerated_failure c m fnf ids objs w x w' t :
  spec.loop_run Quote c m fnf ids objs w x w' t ->
  forall key failure,
    In (disk.EvRetrieve key (inl failure)) t ->
    fnf && fault_Is_NotFound failure = false ->
    x = inl (disk.Errorf_retrieve Quote key failure)
    /\ exists t0, t = t0 ++ [disk.EvRetrieve key (inl failure)].
Proof.
  loop_run_cases;
    intros key failure HIn Hfatal; simpl in HIn.
  - contradiction.
  - destruct HIn as [[= <- <-]|HIn].
    + rewrite EF, ENF in Hfatal. discriminate.
    + destruct (IH _ _ HIn Hfatal) as (-> & t0 & ->).
      split; [reflexivity|].
      now exists (disk.EvRetrieve id (inl err) :: t0).
  - destruct HIn as [[= <- <-]|[]].
    split; [reflexivity|]. now exists [].
  - destruct HIn as [[=]|HIn].
    destruct (IH _ _ HIn Hfatal) as (-> & t0 & ->).
    split; [reflexivity|].
    now exists (disk.EvRetrieve id (inr o) :: t0).
  - destruct HIn as [[=]|[[=]|[]]].
  - destruct HIn as [[=]|[[=]|HIn]].
    destruct (IH _ _ HIn Hfatal) as (-> & t0 & ->).
    split; [reflexivity|].
    now exists (disk.EvRetrieve id (inr o)
                :: disk.EvListAttachedTags id (inr tg) :: t0).
Qed.

(** X6: a retrieval failure that is not a not-found fault ends every run,
    with or without ID arguments and whatever [-a]: it is the last call,
    and [Run] returns the failure's text behind the quoted ID. *)
Theorem other_retrieve_failure_is_fatal env c args w id err :
  fault_Is_NotFound err = false ->
  In (disk.EvRetrieve id (inl err)) (snd (disk.Run Quote env c args w)) ->
  exists w' t0,
    disk.Run Quote env c args w
    = (Some (disk.Errorf_retrieve Quote id err), w',
       t0 ++ [disk.EvRetrieve id (inl err)]).
Proof.
  intros Hother.
  destruct (Run_shape env c args w)
    as [(e & w1 & P & -> & HP)
       |(m & w2 & P & ids & x & w3 & L & out & w4 & HP & EL & _ & -> & Herr
         & _)]; simpl snd; intros HIn.
  - now apply (not_per_id_In P _ HP) in HIn.
  - apply in_app_or in HIn as [HIn|HIn];
      [now apply (not_per_id_In P _ HP) in HIn|].
    apply loop_run_complete in EL.
    destruct (loop_run_untolerated_failure _ _ _ _ _ _ _ _ _ EL _ _ HIn)
      as (-> & t0 & ->).
    { rewrite Hother. apply andb_false_r. }
    rewrite (Herr _ eq_refl). exists w4, (P ++ t0). now rewrite app_assoc.
Qed.

(** A loop that returns an error ends on the call that failed. *)
Lemma loop_run_error c m fnf ids objs w x w' t :
  spec.loop_run Quote c m fnf ids objs w x w' t ->
  forall e, x = inl e ->
  (exists t0 id err,
      t = t0 ++ [disk.EvRetrieve id (inl err)]
      /\ e = disk.Errorf_retrieve Quote id err
      /\ fnf && fault_Is_NotFound err = false)
  \/ (disk.tags c = true
      /\ exists t0 id, t = t0 ++ [disk.EvListAttachedTags id (inl e)]).
Proof.
  loop_run_cases; intros e Ex.
  - discriminate.
  - destruct (IH _ Ex) as [(t0 & id' & err' & -> & -> & Hf)
                          |(HT & t0 & id' & ->)].
    + left. exists (disk.EvRetrieve id (inl err) :: t0), id', err'. auto.
    + right. split; [exact HT|].
      now exists (disk.EvRetrieve id (inl err) :: t0), id'.
  - injection Ex as <-. left. exists [], id, err. auto.
  - destruct (IH _ Ex) as [(t0 & id' & err' & -> & -> & Hf)
                          |(HT & t0 & id' & ->)].
    + left. exists (disk.EvRetrieve id (inr o) :: t0), id', err'. auto.
    + right. split; [exact HT|].
      now exists (disk.EvRetrieve id (inr o) :: t0), id'.
  - injection Ex as <-. right. split; [exact ET|].
    now exists [disk.EvRetrieve id (inr o)], id.
  - destruct (IH _ Ex) as [(t0 & id' & err' & -> & -> & Hf)
                          |(HT & t0 & id' & ->)].
    + left.
      exists (disk.EvRetrieve id (inr o)
              :: disk.EvListAttachedTags id (inr tg) :: t0), id', err'.
      auto.
    + right. split; [exact HT|].
      now exists (disk.EvRetrieve id (inr o)
                  :: disk.EvListAttachedTags id (inr tg) :: t0), id'.
Qed.

(** The stages of [Run] before the result is written, with what each one
    answered. *)
Lemma Run_result_stages env c args w :
  (exists e w0,
      disk.NewManagerFromFlag env w = (inl e, w0)
      /\ disk.Run_result Quote env c args w = (inl e, w0, []))
  \/ (exists m w0 e w1,
        disk.NewManagerFromFlag env w = (inr m, w0)
        /\ disk.r c = true
        /\ disk.ReconcileDatastoreInventory m w0 = (Some e, w1)
        /\ disk.Run_result Quote env c args w
           = (inl e, w1, [disk.EvReconcileDatastoreInventory (Some e)]))
  \/ (exists m w0 w1 t0,
        disk.NewManagerFromFlag env w = (inr m, w0)
        /\ disk.reconcile c m w0 = (inr tt, w1, t0)
        /\ (t0 = [] \/ t0 = [disk.EvReconcileDatastoreInventory None])
        /\ ((args = []
             /\ exists e w2,
                 spec.discovery_call c m w1 = (inl e, w2)
                 /\ disk.Run_result Quote env c args w
                    = (inl e, w2, t0 ++ [spec.discovery_event c (inl e)]))
            \/ (exists ids t1 x w2 w3 L,
                  disk.select_ids c m args w1
                  = (inr (spec.filters_not_found args, ids), w2, t1)
                  /\ (t1 = []
                      \/ exists oids, t1 = [spec.discovery_event c (inr oids)])
                  /\ disk.retrieve_loop Quote c m
                       (spec.filters_not_found args) ids [] w2 = (x, w3, L)
                  /\ disk.Run_result Quote env c args w
                     = (spec.as_result c x, w3, t0 ++ t1 ++ L)))).
Proof.
  rewrite Run_result_unfold.
  destruct (disk.NewManagerFromFlag env w) as [[e|m] w0].
  { left. now exists e, w0. }
  right.
  destruct (disk.reconcile c m w0) as [[[e|[]] w1] t0] eqn:ER.
  { left. revert ER. rewrite reconcile_unfold.
    destruct (disk.r c) eqn:Er; [|discriminate].
    destruct (disk.ReconcileDatastoreInventory m w0) as [[e'|] w1'] eqn:ERec;
      [|discriminate].
    intros [= <- <- <-]. now exists m, w0, e', w1'. }
  right. exists m, w0, w1, t0. split; [reflexivity|]. split; [exact ER|].
  split.
  { revert ER. rewrite reconcile_unfold. destruct (disk.r c).
    - destruct (disk.ReconcileDatastoreInventory m w0) as [[e'|] w1'];
        [discriminate|]. intros [= <- <-]. now right.
    - intros [= <- <-]. now left. }
  destruct args as [|a args'].
  - rewrite select_ids_discovery_call.
    destruct (spec.discovery_call c m w1) as [[e|oids] w2].
    + left. split; [reflexivity|]. now exists e, w2.
    + right. simpl fst; simpl snd.
      destruct (disk.retrieve_loop Quote c m true (map types.ID_Id oids) [] w2)
        as [[x w3] L] eqn:EL.
      exists (map types.ID_Id oids), [spec.discovery_event c (inr oids)],
        x, w2, w3, L.
      split; [reflexivity|]. split; [right; now exists oids|].
      split; [exact EL|]. now destruct x.
  - right. rewrite select_ids_explicit by discriminate.
    simpl fst; simpl snd.
    destruct (disk.retrieve_loop Quote c m false (a :: args') [] w1)
      as [[x w3] L] eqn:EL.
    exists (a :: args'), [], x, w1, w3, L.
    split; [reflexivity|]. split; [now left|]. split; [exact EL|].
    now destruct x.
Qed.

(** X7: every error [Run] returns is the error of one stage: the
    acquisition of the manager (nothing called), the reconciliation under
    [-R], the discovery call of a run without arguments, a retrieval that
    is not tolerated (as the quoted-ID error), a tag lookup under [-T], or
    [WriteResult]; in the first five cases the failed call is the last
    call made. *)
Theorem Run_error_has_a_source env c args w e w' t :
  disk.Run Quote env c args w = (Some e, w', t) ->
  (disk.NewManagerFromFlag env w = (inl e, w') /\ t = [])
  \/ (disk.r c = true
      /\ t = [disk.EvReconcileDatastoreInventory (Some e)])
  \/ (args = [] /\ exists t0, t = t0 ++ [spec.discovery_event c (inl e)])
  \/ (exists t0 id err,
        t = t0 ++ [disk.EvRetrieve id (inl err)]
        /\ e = disk.Errorf_retrieve Quote id err
        /\ spec.filters_not_found args && fault_Is_NotFound err = false)
  \/ (disk.tags c = true
      /\ exists t0 id, t = t0 ++ [disk.EvListAttachedTags id (inl e)])
  \/ (exists res w1,
        disk.Run_result Quote env c args w = (inr res, w1, t)
        /\ disk.WriteResult env res w1 = (Some e, w')).
Proof.
  rewrite Run_unfold.
  destruct (Run_result_stages env c args w)
    as [(e0 & w0 & EM & ->)
       |[(m & w0 & e0 & w1 & EM & ER & ERec & ->)
        |(m & w0 & w1 & t0 & EM & ER & Ht0
          & [(Hargs & e0 & w2 & ED & ->)
            |(ids & t1 & x & w2 & w3 & L & ES & Ht1 & EL & ->)])]].
  - intros [= <- <- <-]. left. auto.
  - intros [= <- <- <-]. right; left. auto.
  - intros [= <- <- <-]. right; right; left. split; [exact Hargs|].
    now exists t0.
  - apply loop_run_complete in EL. destruct x as [e0|objs]; simpl.
    + intros [= <- <- <-].
      destruct (loop_run_error _ _ _ _ _ _ _ _ _ EL e0 eq_refl)
        as [(t2 & id & err & -> & -> & Hf)|(HT & t2 & id & ->)].
      * right; right; right; left.
        exists (t0 ++ t1 ++ t2), id, err. now rewrite <- !app_assoc.
      * right; right; right; right; left. split; [exact HT|].
        exists (t0 ++ t1 ++ t2), id. now rewrite <- !app_assoc.
    + destruct (disk.WriteResult env _ w3) as [out w4] eqn:EW.
      intros [= -> <- <-].
      right; right; right; right; right.
      now exists {| disk.cmd := c; disk.Objects := objs |}, w3.
Qed.

Lemma discovery_event_answer c x :
  aux.answered_error (spec.discovery_event c x)
  = match x with inl e => Some e | inr _ => None end.
Proof.
  unfold spec.discovery_event.
  destruct (String.eqb (disk.category c) ""); now destruct x.
Qed.

(** In a loop that goes through, the only errors answered are the
    tolerated not-found ones. *)
Lemma loop_run_answers c m fnf ids objs w x w' t :
  spec.loop_run Quote c m fnf ids objs w x w' t ->
  forall res, x = inr res ->
  forall ev failure,
    In ev t -> aux.answered_error ev = Some failure ->
    fnf = true /\ fault_Is_NotFound failure = true
    /\ exists key, ev = disk.EvRetrieve key (inl failure).
Proof.
  loop_run_cases; intros res Ex ev failure HIn Hans; simpl in HIn.
  - contradiction.
  - destruct HIn as [ <- | HIn ]; [|now apply (IH _ Ex)].
    injection Hans as <-. eauto.
  - discriminate.
  - destruct HIn as [ <- | HIn ]; [discriminate | now apply (IH _ Ex)].
  - discriminate.
  - destruct HIn as [ <- | [ <- | HIn ] ]; [discriminate | discriminate |].
    now apply (IH _ Ex).
Qed.

(** X8: when [Run] returns nil, every call it made was answered without
    error, except retrievals answered not-found in a run without ID
    arguments. *)
Theorem nil_return_means_calls_succeeded env c args w w' t :
  disk.Run Quote env c args w = (None, w', t) ->
  forall ev failure,
    In ev t -> aux.answered_error ev = Some failure ->
    args = [] /\ fault_Is_NotFound failure = true
    /\ exists id, ev = disk.EvRetrieve id (inl failure).
Proof.
  rewrite Run_unfold.
  destruct (Run_result_stages env c args w)
    as [(e0 & w0 & EM & ->)
       |[(m & w0 & e0 & w1 & EM & ER & ERec & ->)
        |(m & w0 & w1 & t0 & EM & ER & Ht0
          & [(Hargs & e0 & w2 & ED & ->)
            |(ids & t1 & x & w2 & w3 & L & ES & Ht1 & EL & ->)])]];
    try discriminate.
  apply loop_run_complete in EL.
  destruct x as [e0|objs]; simpl; [discriminate|].
  destruct (disk.WriteResult env _ w3) as [out w4].
  intros [= -> <- <-] ev failure HIn Hans.
  apply in_app_or in HIn as [HIn|HIn].
  { destruct Ht0 as [ -> | -> ]; [contradiction|].
    destruct HIn as [ <- | [] ]. discriminate. }
  apply in_app_or in HIn as [HIn|HIn].
  { destruct Ht1 as [->|(oids & ->)]; [contradiction|].
    destruct HIn as [ <- | [] ]. rewrite discovery_event_answer in Hans.
    discriminate. }
  destruct (loop_run_answers _ _ _ _ _ _ _ _ _ EL objs eq_refl _ _ HIn Hans)
    as (Hf & HNF & key & ->).
  split; [now destruct args | eauto].
Qed.

(** *** The IDs retrieved and the size of the result *)

Lemma loop_run_retrievals_prefix c m fnf ids objs w x w' t :
  spec.loop_run Quote c m fnf ids objs w x w' t ->
  exists rest, ids = map fst (spec.retrievals t) ++ rest.
Proof.
  loop_run_cases; simpl.
  - now exists [].
  - destruct IH as (rest & ->). now exists rest.
  - now exists ids.
  - destruct IH as (rest & ->). now exists rest.
  - now exists ids.
  - destruct IH as (rest & ->). now exists rest.
Qed.

(** X9: in every run, failed or not, the IDs on which [Retrieve] is
    called are, in order and without repetition of a call, the first IDs of
    the sequence to list: of the arguments when there are some, else of the
    IDs the discovery call answered (and none is retrieved when no
    discovery call answered). *)
Theorem retrieved_ids_are_a_prefix env c args w :
  (args <> [] ->
   exists rest,
     args
     = map fst (spec.retrievals (snd (disk.Run Quote env c args w))) ++ rest)
  /\ (args = [] ->
      spec.retrievals (snd (disk.Run Quote env c args w)) = []
      \/ exists oids rest,
           In (spec.discovery_event c (inr oids))
              (snd (disk.Run Quote env c args w))
           /\ map types.ID_Id oids
              = map fst (spec.retrievals (snd (disk.Run Quote env c args w)))
                ++ rest).
Proof.
  destruct (Run_shape env c args w)
    as [(e & w1 & P & -> & HP)
       |(m & w2 & P & ids & x & w3 & L & out & w4 & HP & EL & _ & -> & _ & _
         & Hexp & Hdisc)]; simpl snd.
  - rewrite (retrievals_prefix P HP). split.
    + intros _. now exists args.
    + intros _. now left.
  - apply loop_run_complete in EL.
    destruct (loop_run_retrievals_prefix _ _ _ _ _ _ _ _ _ EL) as (rest & E).
    rewrite retrievals_app, (retrievals_prefix P HP). simpl. split.
    + intros Hargs. rewrite <- (Hexp Hargs). now exists rest.
    + intros Hargs. right. destruct (Hdisc Hargs) as (oids & HIn & Eids).
      exists oids, rest. split; [apply in_or_app; now left|].
      now rewrite <- Eids.
Qed.

Lemma entries_count c args calls entries :
  Forall2 (spec.entry_of c args) calls entries ->
  length (flat_map spec.present entries) <= length calls
  /\ (args <> [] \/ disk.all c = true ->
      length (flat_map spec.present entries) = length calls).
Proof.
  induction 1 as [|[id x] entry calls entries Hentry HF [IH1 IH2]]; simpl.
  - auto.
  - unfold spec.entry_of in Hentry. simpl in Hentry.
    rewrite length_app. destruct x as [err|o].
    + destruct Hentry as (Hargs & _ & ->). split.
      * destruct (disk.all c); simpl; lia.
      * intros [Hne|Hall]; [contradiction|].
        rewrite Hall. simpl. rewrite IH2; auto.
    + destruct Hentry as (obj & -> & _). simpl. split; [lia|].
      intros H. now rewrite (IH2 H).
Qed.

Lemma Run_result_entries env c args w res w1 t :
  disk.Run_result Quote env c args w = (inr res, w1, t) ->
  exists entries,
    Forall2 (spec.entry_of c args) (spec.retrievals t) entries
    /\ disk.Objects res = flat_map spec.present entries
    /\ (args <> [] -> map fst (spec.retrievals t) = args)
    /\ (args = [] ->
        exists oids, In (spec.discovery_event c (inr oids)) t
                     /\ map fst (spec.retrievals t) = map types.ID_Id oids).
Proof.
  destruct (Run_result_shape env c args w)
    as [(e & w0 & P & -> & HP)
       |(m & w2 & P & ids & x & w3 & L & HP & EL & -> & Hexp & Hdisc)];
    [discriminate|].
  destruct x as [e|objs]; [discriminate|].
  intros [= <- <- <-]. apply loop_run_complete in EL.
  destruct (loop_run_entries _ _ _ _ _ _ _ _ _ EL objs eq_refl)
    as (entries & Hobjs & HF & Hids).
  exists entries. rewrite retrievals_app, (retrievals_prefix P HP). simpl.
  split; [exact HF|]. split; [exact Hobjs|]. split.
  - intros Hargs. now rewrite Hids, (Hexp Hargs).
  - intros Hargs. destruct (Hdisc Hargs) as (oids & HIn & Eids).
    exists oids. split; [apply in_or_app; now left|].
    now rewrite Hids.
Qed.

(** X10: a run that gets to its result lists at most one object per
    [Retrieve] call; given ID arguments it lists exactly one object per
    argument, and without arguments but with [-a] exactly one entry per
    discovered ID. *)
Theorem result_size env c args w res w1 t :
  disk.Run_result Quote env c args w = (inr res, w1, t) ->
  length (disk.Objects res) <= length (spec.retrievals t)
  /\ (args <> [] -> length (disk.Objects res) = length args)
  /\ (args = [] -> disk.all c = true ->
      exists oids, In (spec.discovery_event c (inr oids)) t
                   /\ length (disk.Objects res) = length oids).
Proof.
  intros ER.
  destruct (Run_result_entries _ _ _ _ _ _ _ ER)
    as (entries & HF & -> & Hexp & Hdisc).
  destruct (entries_count _ _ _ _ HF) as [Hle Heq].
  split; [exact Hle|]. split.
  - intros Hargs. rewrite (Heq (or_introl Hargs)).
    now rewrite <- (Hexp Hargs), length_map.
  - intros Hargs Hall. destruct (Hdisc Hargs) as (oids & HIn & Hids).
    exists oids. split; [exact HIn|].
    rewrite (Heq (or_intror Hall)).
    now rewrite <- (length_map fst), Hids, length_map.
Qed.

Lemma entries_all_absent c args calls entries :
  Forall2 (spec.entry_of c args) calls entries ->
  disk.all c = false ->
  (forall id o, ~ In (id, inr o) calls) ->
  flat_map spec.present entries = [].
Proof.
  induction 1 as [|[id x] entry calls entries Hentry HF IH];
    intros Hall Hnone; [reflexivity|].
  unfold spec.entry_of in Hentry. simpl in Hentry. destruct x as [err|o].
  - destruct Hentry as (_ & _ & ->). rewrite Hall. simpl.
    apply IH; [exact Hall|]. intros id' o HIn. apply (Hnone id' o). now right.
  - exfalso. apply (Hnone id o). now left.
Qed.

(** *** The result as a function of the answers *)

Lemma replay_prefix a P L :
  forallb spec.not_per_id P = true ->
  aux.replay a (P ++ L) = aux.replay a L.
Proof.
  induction P as [|ev P IH]; [reflexivity|]. simpl.
  intros H. apply andb_prop in H as [Hev H].
  destruct ev; try discriminate; now apply IH.
Qed.

Lemma loop_run_replay c m fnf ids objs w x w' t :
  spec.loop_run Quote c m fnf ids objs w x w' t ->
  forall res, x = inr res -> res = objs ++ aux.replay (disk.all c) t.
Proof.
  loop_run_cases; intros res Ex.
  - injection Ex as <-. simpl. now rewrite app_nil_r.
  - rewrite (IH _ Ex). simpl.
    destruct (disk.all c); [now rewrite <- app_assoc | reflexivity].
  - discriminate.
  - rewrite (IH _ Ex), <- app_assoc. simpl.
    pose proof (loop_run_head _ _ _ _ _ _ _ _ _ HL) as Hhead.
    destruct t as [|[| | | |id' [e'|tg']] t']; try reflexivity.
    now destruct (Hhead id' (inr tg') t').
  - discriminate.
  - rewrite (IH _ Ex), <- app_assoc. reflexivity.
Qed.

(** X11: the objects of the result are fixed by what the manager answered,
    call after call: each retrieved object as answered, with the tags
    answered by the lookup right after it (none without a lookup), and for
    each not-found answer the placeholder when [-a] is set and nothing
    otherwise. *)
Theorem result_is_replay_of_answers env c args w res w1 t :
  disk.Run_result Quote env c args w = (inr res, w1, t) ->
  disk.Objects res = aux.replay (disk.all c) t.
Proof.
  destruct (Run_result_shape env c args w)
    as [(e & w0 & P & -> & HP)
       |(m & w2 & P & ids & x & w3 & L & HP & EL & -> & _)];
    [discriminate|].
  destruct x as [e|objs]; [discriminate|].
  intros [= <- <- <-]. apply loop_run_complete in EL.
  rewrite (replay_prefix _ _ _ HP).
  exact (loop_run_replay _ _ _ _ _ _ _ _ _ EL objs eq_refl).
Qed.

(** X12: without [-a], a run that gets to its result without one
    successful retrieval (nothing discovered, or every discovered ID gone)
    has an empty result, for which [Write] writes nothing. *)
Theorem nothing_retrieved_nothing_listed env c args w res w1 t :
  disk.Run_result Quote env c args w = (inr res, w1, t) ->
  disk.all c = false ->
  (forall id o, ~ In (disk.EvRetrieve id (inr o)) t) ->
  disk.Objects res = []
  /\ forall FileSize_String Format_Stamp,
       disk.Write FileSize_String Format_Stamp res = "".
Proof.
  intros ER Hall Hnone.
  destruct (Run_result_entries _ _ _ _ _ _ _ ER) as (entries & HF & E & _).
  assert (Hobjs : disk.Objects res = []).
  { rewrite E. apply (entries_all_absent _ _ _ _ HF Hall).
    intros id o HIn. apply (Hnone id o). now apply retrievals_In. }
  split; [exact Hobjs|].
  intros fs ft. unfold disk.Write. now rewrite Hobjs.
Qed.

(** *** The output options *)

Lemma loop_with_format l L c m fnf ids : forall objs w,
  disk.retrieve_loop Quote (aux.with_format l L c) m fnf ids objs w
  = disk.retrieve_loop Quote c m fnf ids objs w.
Proof.
  induction ids as [|id ids IH]; intros objs w; [reflexivity|].
  rewrite !loop_cons. simpl disk.all. simpl disk.tags.
  destruct (disk.Retrieve m id w) as [[err|o] w1].
  - now rewrite IH.
  - destruct (disk.tags c); [|now rewrite IH].
    destruct (disk.ListAttachedTags m id w1) as [[err|tg'] w2];
      [reflexivity | now rewrite IH].
Qed.

(** X13: the output options [-l] and [-L] change nothing of what a run
    does before it writes: the same calls with the same answers, the same
    world, and the same objects or the same error. *)
Theorem format_flags_do_not_change_the_listing env c args w l L :
  spec.objects_of
    (disk.Run_result Quote env (aux.with_format l L c) args w)
  = spec.objects_of (disk.Run_result Quote env c args w).
Proof.
  apply objects_of_Run_result.
  - reflexivity.
  - reflexivity.
  - intros m fnf ids objs w1. apply loop_with_format.
Qed.

(** *** What [-a] changes *)

Lemma forget_after {A} (out : (error + A) * World * list disk.Event)
    (evs : list disk.Event) :
  aux.forget (let '(x, w1, t) := out in (x, w1, evs ++ t))
  = let '(e, w1, t) := aux.forget out in (e, w1, evs ++ t).
Proof. now destruct out as [[[e|a] w1] t]. Qed.

Lemma loop_forget_all a c m fnf ids : forall objs objs' w,
  aux.forget (disk.retrieve_loop Quote (aux.with_all a c) m fnf ids objs w)
  = aux.forget (disk.retrieve_loop Quote c m fnf ids objs' w).
Proof.
  induction ids as [|id ids IH]; intros objs objs' w; [reflexivity|].
  rewrite !loop_cons. simpl disk.all. simpl disk.tags.
  destruct (disk.Retrieve m id w) as [[err|o] w1].
  - destruct (fnf && fault_Is_NotFound err); [|reflexivity].
    rewrite (forget_after _ [disk.EvRetrieve id (inl err)]).
    rewrite (forget_after
               (disk.retrieve_loop Quote c m fnf ids _ w1)
               [disk.EvRetrieve id (inl err)]).
    now rewrite (IH _ (if disk.all c
                       then objs' ++ [disk.placeholder id] else objs')).
  - destruct (disk.tags c).
    + destruct (disk.ListAttachedTags m id w1) as [[err|tg] w2];
        [reflexivity|].
      rewrite (forget_after _ [disk.EvRetrieve id (inr o);
                               disk.EvListAttachedTags id (inr tg)]).
      rewrite (forget_after
                 (disk.retrieve_loop Quote c m fnf ids _ w2)
                 [disk.EvRetrieve id (inr o);
                  disk.EvListAttachedTags id (inr tg)]).
      now rewrite (IH _ (objs' ++ [disk.mkVStorageObject o tg])).
    + rewrite (forget_after _ [disk.EvRetrieve id (inr o)]).
      rewrite (forget_after
                 (disk.retrieve_loop Quote c m fnf ids _ w1)
                 [disk.EvRetrieve id (inr o)]).
      now rewrite (IH _ (objs' ++ [disk.mkVStorageObject o []])).
Qed.

(** X14: [-a] changes only which entries are listed: with or without it a
    run makes the same calls, leaves the same world and fails with the same
    error or gets to its result alike. *)
Theorem all_flag_changes_entries_only env c args w a :
  aux.forget (disk.Run_result Quote env (aux.with_all a c) args w)
  = aux.forget (disk.Run_result Quote env c args w).
Proof.
  rewrite !Run_result_unfold.
  destruct (disk.NewManagerFromFlag env w) as [[e|m] w0]; [reflexivity|].
  change (disk.reconcile (aux.with_all a c) m w0)
    with (disk.reconcile c m w0).
  destruct (disk.reconcile c m w0) as [[[e|[]] w1] t0]; [reflexivity|].
  change (disk.select_ids (aux.with_all a c) m args w1)
    with (disk.select_ids c m args w1).
  destruct (disk.select_ids c m args w1) as [[[e|sel] w2] t1]; [reflexivity|].
  pose proof (loop_forget_all a c m (fst sel) (snd sel) [] [] w2) as H.
  destruct (disk.retrieve_loop Quote (aux.with_all a c) m _ _ [] w2)
    as [[[e|objs] w3] t2];
    destruct (disk.retrieve_loop Quote c m _ _ [] w2)
      as [[[e'|objs'] w3'] t2'];
    simpl in H; try discriminate; injection H; intros; subst; reflexivity.
Qed.

(** *** The number of calls *)

Lemma loop_run_calls c m fnf ids objs w x w' t :
  spec.loop_run Quote c m fnf ids objs w x w' t ->
  length t <= (if disk.tags c then 2 else 1) * length ids.
Proof.
  loop_run_cases; simpl length.
  - lia.
  - destruct (disk.tags c); lia.
  - destruct (disk.tags c); lia.
  - rewrite ET in *. lia.
  - rewrite ET. lia.
  - rewrite ET in *. lia.
Qed.

(** X15: a run makes at most one call for [-R], one discovery call when
    there is no ID argument, and per ID to list one call, or two with
    [-T]. *)
Theorem calls_are_bounded env c args w :
  (args <> [] ->
   length (snd (disk.Run Quote env c args w))
   <= (if disk.r c then 1 else 0)
      + (if disk.tags c then 2 else 1) * length args)
  /\ (args = [] ->
      length (snd (disk.Run Quote env c args w))
      <= (if disk.r c then 1 else 0) + 1
      \/ exists oids,
           In (spec.discovery_event c (inr oids))
              (snd (disk.Run Quote env c args w))
           /\ length (snd (disk.Run Quote env c args w))
              <= (if disk.r c then 1 else 0) + 1
                 + (if disk.tags c then 2 else 1) * length oids).
Proof.
  rewrite Run_trace.
  destruct (Run_result_stages env c args w)
    as [(e0 & w0 & EM & ->)
       |[(m & w0 & e0 & w1 & EM & ER & ERec & ->)
        |(m & w0 & w1 & t0 & EM & ER & Ht0
          & [(Hargs & e0 & w2 & ED & ->)
            |(ids & t1 & x & w2 & w3 & L & ES & Ht1 & EL & ->)])]];
    simpl snd.
  - split; intros _; [|left]; simpl; lia.
  - rewrite ER. split; intros _; [|left]; simpl; lia.
  - apply reconcile_trace in ER as [_ Hlen].
    split; [congruence|]. intros _. left.
    rewrite length_app, Hlen. simpl. lia.
  - apply reconcile_trace in ER as [_ Hlen].
    apply loop_run_complete in EL. apply loop_run_calls in EL.
    rewrite !length_app, Hlen.
    destruct args as [|a args'].
    + split; [congruence|]. intros _. right.
      rewrite select_ids_discovery_call in ES.
      destruct (spec.discovery_call c m w1) as [[e|oids] w2'];
        [discriminate|].
      injection ES; intros; subst. exists oids. split.
      * apply in_or_app. right. now left.
      * rewrite length_map in EL.
        destruct (disk.tags c), (disk.r c); simpl in *; lia.
    + split; [|discriminate]. intros _.
      rewrite select_ids_explicit in ES by discriminate.
      injection ES; intros; subst.
      destruct (disk.tags c), (disk.r c); simpl in *; lia.
Qed.

(** *** Placeholders in the result *)

(** The loop over a non-empty list starts by retrieving its first ID. *)
Lemma loop_run_first_call c m fnf id ids objs w x w' t :
  spec.loop_run Quote c m fnf (id :: ids) objs w x w' t ->
  exists y t', t = disk.EvRetrieve id y :: t'.
Proof. inversion 1; subst; eauto. Qed.

(** C2: in a run without ID arguments that has come to a discovered ID
    whose retrieval answers not-found, the run goes on: the next call is
    the retrieval of the next discovered ID, an error returned later is the
    error of a call made for a later ID, and the result handed to
    [WriteResult] is the objects listed so far, then with [-a] the entry
    with that ID and the name "not found: use 'disk.ls -R' to reconcile
    datastore inventory" and without [-a] nothing, then the entries of the
    remaining IDs. *)
Theorem discovery_not_found_placeholder_or_omitted
    env c w m w0 w1 t0 ids1 id ids2 w2 t1 objs1 w3 t2 err w4 :
  disk.NewManagerFromFlag env w = (inr m, w0) ->
  disk.reconcile c m w0 = (inr tt, w1, t0) ->
  disk.select_ids c m [] w1 = (inr (true, ids1 ++ id :: ids2), w2, t1) ->
  disk.retrieve_loop Quote c m true ids1 [] w2 = (inr objs1, w3, t2) ->
  disk.Retrieve m id w3 = (inl err, w4) ->
  fault_Is_NotFound err = true ->
  exists x w5 t3,
    disk.retrieve_loop Quote c m true ids2
      (objs1
       ++ (if disk.all c then
             [{| disk.Object :=
                   {| types.Config :=
                        {| types.Base :=
                             {| types.Id := types.mkID id;
                                types.Name :=
                                  "not found: use 'disk.ls -R' to reconcile datastore inventory";
                                types.CreateTime := 0%Z;
                                types.Backing := types.nil_backing |};
                           types.CapacityInMB := 0%Z |} |};
                 disk.Tags := [] |}]
           else [])) w4
    = (x, w5, t3)
    /\ disk.Run_result Quote env c [] w
       = (spec.as_result c x, w5,
          t0 ++ t1 ++ t2 ++ disk.EvRetrieve id (inl err) :: t3)
    /\ (forall next rest, ids2 = next :: rest ->
        exists y t4, t3 = disk.EvRetrieve next y :: t4)
    /\ (forall e, x = inl e ->
        (exists t4 id' err',
            t3 = t4 ++ [disk.EvRetrieve id' (inl err')]
            /\ e = disk.Errorf_retrieve Quote id' err'
            /\ fault_Is_NotFound err' = false)
        \/ (exists t4 id',
              t3 = t4 ++ [disk.EvListAttachedTags id' (inl e)]))
    /\ (forall res w' t,
          disk.Run_result Quote env c [] w = (inr res, w', t) ->
          exists entries,
            Forall2 (spec.entry_of c []) (spec.retrievals t3) entries
            /\ disk.Objects res
               = objs1
                 ++ (if disk.all c then
                       [{| disk.Object :=
                             {| types.Config :=
                                  {| types.Base :=
                                       {| types.Id := types.mkID id;
                                          types.Name :=
                                            "not found: use 'disk.ls -R' to reconcile datastore inventory";
                                          types.CreateTime := 0%Z;
                                          types.Backing := types.nil_backing |};
                                     types.CapacityInMB := 0%Z |} |};
                           disk.Tags := [] |}]
                     else [])
                 ++ flat_map spec.present entries).
Proof.
  intros EM ER ES EL ERet ENF.
  pose proof (Run_result_resume _ _ _ _ _ _ _ _ _ _ _ _ _ _ _ _ _
                EM ER ES EL ERet ENF) as Hrun.
  change {| disk.Object :=
              {| types.Config :=
                   {| types.Base :=
                        {| types.Id := types.mkID id;
                           types.Name :=
                             "not found: use 'disk.ls -R' to reconcile datastore inventory";
                           types.CreateTime := 0%Z;
                           types.Backing := types.nil_backing |};
                      types.CapacityInMB := 0%Z |} |};
            disk.Tags := [] |}
    with (disk.placeholder id).
  assert (Eacc : (if disk.all c then objs1 ++ [disk.placeholder id] else objs1)
                 = objs1 ++ (if disk.all c then [disk.placeholder id] else [])).
  { destruct (disk.all c); [reflexivity | now rewrite app_nil_r]. }
  rewrite Eacc in Hrun.
  destruct (disk.retrieve_loop Quote c m true ids2
              (objs1 ++ (if disk.all c then [disk.placeholder id] else []))
              w4) as [[x w5] t3] eqn:EL2.
  exists x, w5, t3. split; [reflexivity|]. split; [exact Hrun|].
  apply loop_run_complete in EL2. split; [|split].
  - intros next rest ->. eapply loop_run_first_call; eassumption.
  - intros e ->.
    destruct (loop_run_error _ _ _ _ _ _ _ _ _ EL2 e eq_refl)
      as [(t4 & id' & err' & -> & -> & Hf)|(_ & t4 & id' & ->)].
    + left. exists t4, id', err'. auto.
    + right. now exists t4, id'.
  - intros res w' t. rewrite Hrun. destruct x as [e|objs]; [discriminate|].
    intros [= <- _ _]. simpl.
    destruct (loop_run_entries c m [] _ _ _ _ _ _ EL2 objs eq_refl)
      as (entries & -> & HF & _).
    exists entries. split; [exact HF|]. now rewrite <- app_assoc.
Qed.

Lemma entries_positions c args calls entries :
  Forall2 (spec.entry_of c args) calls entries ->
  disk.all c = true ->
  forall i id x,
    nth_error calls i = Some (id, x) ->
    match x with
    | inl _ =>
        nth_error (flat_map spec.present entries) i
        = Some (disk.placeholder id)
    | inr o =>
        exists obj,
          nth_error (flat_map spec.present entries) i = Some obj
          /\ disk.Object obj = o
    end.
Proof.
  induction 1 as [|[id0 x0] entry calls entries Hentry HF IH];
    intros Hall i id x Hi.
  - now destruct i.
  - unfold spec.entry_of in Hentry. simpl in Hentry.
    assert (exists obj, entry = Some obj
                        /\ match x0 with
                           | inl _ => obj = disk.placeholder id0
                           | inr o => disk.Object obj = o
                           end) as (obj & -> & Hobj).
    { destruct x0 as [err|o].
      - destruct Hentry as (_ & _ & ->). rewrite Hall. eauto.
      - destruct Hentry as (obj & -> & <- & _). eauto. }
    simpl. destruct i as [|i]; simpl in *.
    + injection Hi as <- <-. destruct x0 as [err|o]; [now subst | eauto].
    + now apply (IH Hall i id x).
Qed.

(** C10: in the result a run with [-a] hands to [WriteResult] there is one
    entry per [Retrieve] call, at the place of the call; the entry at the
    place of a retrieval that failed (a not-found answer for a discovered
    ID) has that ID in [Config.Id.Id], the name "not found: use 'disk.ls
    -R' to reconcile datastore inventory", no tags and every other field
    zero, whatever [-T]; the entry at the place of a successful retrieval
    is the retrieved object.  No failed retrieval is followed by a tag
    lookup. *)
Theorem placeholder_entry_shape env c args w res w1 t :
  disk.Run_result Quote env c args w = (inr res, w1, t) ->
  disk.all c = true ->
  length (disk.Objects res) = length (spec.retrievals t)
  /\ (forall i id err,
        nth_error (spec.retrievals t) i = Some (id, inl err) ->
        args = [] /\ fault_Is_NotFound err = true
        /\ nth_error (disk.Objects res) i
           = Some {| disk.Object :=
                       {| types.Config :=
                            {| types.Base :=
                                 {| types.Id := types.mkID id;
                                    types.Name :=
                                      "not found: use 'disk.ls -R' to reconcile datastore inventory";
                                    types.CreateTime := 0%Z;
                                    types.Backing := types.nil_backing |};
                               types.CapacityInMB := 0%Z |} |};
                     disk.Tags := [] |})
  /\ (forall i id o,
        nth_error (spec.retrievals t) i = Some (id, inr o) ->
        exists obj,
          nth_error (disk.Objects res) i = Some obj /\ disk.Object obj = o)
  /\ (forall t1 id err t2,
        t = t1 ++ disk.EvRetrieve id (inl err) :: t2 ->
        forall id' y rest, t2 <> disk.EvListAttachedTags id' y :: rest).
Proof.
  intros ER Hall.
  destruct (Run_result_entries _ _ _ _ _ _ _ ER)
    as (entries & HF & -> & _).
  destruct (entries_count _ _ _ _ HF) as [_ Hlen].
  split; [apply Hlen; now right|]. split; [|split].
  - intros i id err Hi. split; [|split].
    + clear Hlen. revert i Hi.
      induction HF as [|[id0 x0] entry calls entries Hentry HF IH];
        intros [|i] Hi; try discriminate.
      * injection Hi as -> ->. now destruct Hentry as (? & _).
      * now apply (IH i).
    + clear Hlen. revert i Hi.
      induction HF as [|[id0 x0] entry calls entries Hentry HF IH];
        intros [|i] Hi; try discriminate.
      * injection Hi as -> ->. now destruct Hentry as (_ & ? & _).
      * now apply (IH i).
    + exact (entries_positions _ _ _ _ HF Hall i id (inl err) Hi).
  - intros i id o Hi.
    exact (entries_positions _ _ _ _ HF Hall i id (inr o) Hi).
  - intros t1 id err t2 -> id' y rest ->.
    destruct (Run_result_shape env c args w)
      as [(e & w0 & P & E & HP)
         |(m & w2 & P & ids & x & w3 & L & HP & EL & E & _)];
      rewrite E in ER; [discriminate|].
    injection ER as _ _ Et.
    change (t1 ++ disk.EvRetrieve id (inl err)
               :: disk.EvListAttachedTags id' y :: rest)
      with (t1 ++ [disk.EvRetrieve id (inl err)]
               ++ disk.EvListAttachedTags id' y :: rest) in Et.
    rewrite app_assoc in Et.
    apply split_after_prefix in Et as (A' & EA & EL'); auto.
    apply loop_run_complete in EL. subst L.
    destruct (loop_run_lookup_preceded _ _ _ _ _ _ _ _ _ EL _ _ _ _ eq_refl)
      as (t0 & o & E0).
    assert (Elast : t1 ++ [disk.EvRetrieve id (inl err)]
                    = (P ++ t0) ++ [disk.EvRetrieve id' (inr o)]).
    { now rewrite EA, E0, app_assoc. }
    apply app_inj_tail in Elast as [_ [=]].
Qed.

End LsRun.

(** ** Properties of [remove.Run] *)

Section RemoveRun.

Context {World : Type}.

(** C8: when the account manager cannot be acquired, [Run] returns that
    error and calls nothing; otherwise it makes one call, [Remove] with the
    account ID bound by the flags, and returns what that call returned,
    nil or the error, as it is. *)
Theorem remove_Run_is_one_Remove_call (cmd : account.remove World) (w : World) :
  match account.HostAccountManager (account.Flag cmd) w with
  | (inl err, w1) => account.Run cmd w = (Some err, w1, [])
  | (inr m, w1) =>
      let '(res, w2) :=
        object.Remove m (account.HostAccountSpec_Id (account.Flag cmd)) w1 in
      account.Run cmd w
      = (res, w2,
         [account.EvRemove (account.HostAccountSpec_Id (account.Flag cmd)) res])
  end.
Proof.
  unfold account.Run.
  destruct (account.HostAccountManager (account.Flag cmd) w) as [[err|m] w1];
    [reflexivity|].
  now destruct (object.Remove m _ w1) as [res w2].
Qed.

End RemoveRun.

(** ** Concrete runs *)

Example Write_with_L :
  disk.Write (fun _ => "10.0MB") (fun _ => "Nov 14 22:13:20")
    {| disk.cmd :=
         {| disk.all := true; disk.long := false; disk.path := true;
            disk.r := false; disk.category := ""; disk.tag := "";
            disk.tags := true |};
       disk.Objects :=
         [fake.entry "a1";
          {| disk.Object := fake.rdm "r3"; disk.Tags := [] |};
          disk.placeholder "g2"] |}
  = ("a1" ++ disk.TAB ++ "[ds] fcd/a1.vmdk" ++ disk.TAB
     ++ "k8s-region:us-west-2" ++ disk.NL
     ++ "r3" ++ disk.TAB ++ "lun-r3" ++ disk.TAB ++ disk.NL
     ++ "g2" ++ disk.TAB
     ++ "not found: use 'disk.ls -R' to reconcile datastore inventory"
     ++ disk.TAB ++ disk.NL)%string.
Proof. reflexivity. Qed.

Example Write_long_without_L :
  disk.Write (fun n => if Z.eqb n 10485760 then "10.0MB" else "?")
    (fun _ => "Nov 14 22:13:20")
    {| disk.cmd :=
         {| disk.all := false; disk.long := true; disk.path := false;
            disk.r := false; disk.category := ""; disk.tag := "";
            disk.tags := false |};
       disk.Objects := [fake.entry "a1"] |}
  = ("a1" ++ disk.TAB ++ "disk-a1" ++ disk.TAB ++ "10.0MB" ++ disk.TAB
     ++ "Nov 14 22:13:20" ++ disk.NL)%string.
Proof. reflexivity. Qed.

Example int64_mul_wraps :
  disk.int64_mul (disk.int64_mul 8796093022208 1024) 1024
  = (-9223372036854775808)%Z.
Proof. reflexivity. Qed.

Example ls_discovery_without_a :
  disk.Run fake.quote (fake.env true true)
    (fake.flags false false false "" "") [] 0
  = (None, 4,
     [disk.EvList (inr fake.listed);
      disk.EvRetrieve "a1" (inr (fake.disk_file "a1"));
      disk.EvRetrieve "g2" (inl fake.err_not_found);
      disk.EvRetrieve "r3" (inr (fake.rdm "r3"))]).
Proof. reflexivity. Qed.

Example ls_explicit_not_found_with_a :
  disk.Run fake.quote (fake.env true true)
    (fake.flags true false false "" "") ["g2"] 0
  = (Some {| Error :=
               ("retrieve " ++ fake.quote "g2" ++ ": object not found")%string;
             fault_Is_NotFound := false |},
     1, [disk.EvRetrieve "g2" (inl fake.err_not_found)]).
Proof. reflexivity. Qed.

Example ls_discovery_other_failure :
  disk.Run fake.quote (fake.env true true)
    (fake.flags true true false "k8s-region" "none") [] 0
  = (Some fake.err_denied, 2,
     [disk.EvReconcileDatastoreInventory None;
      disk.EvListAttachedObjects "k8s-region" "none" (inl fake.err_denied)]).
Proof. reflexivity. Qed.

Example ls_no_manager :
  disk.Run fake.quote fake.env_no_manager
    (fake.flags true true true "" "") ["a1"] 0
  = (Some fake.err_denied, 0, []).
Proof. reflexivity. Qed.

Example remove_user :
  account.Run (fake.remove_cmd "alice" true) 0
  = (None, 1, [account.EvRemove "alice" None]).
Proof. reflexivity. Qed.

Example remove_root :
  account.Run (fake.remove_cmd "root" true) 0
  = (Some fake.err_denied, 1, [account.EvRemove "root" (Some fake.err_denied)]).
Proof. reflexivity. Qed.

Example remove_unreachable :
  account.Run (fake.remove_cmd "alice" false) 0
  = (Some fake.err_not_found, 0, []).
Proof. reflexivity. Qed.

Lemma explicit_id_retrieve_failure_is_fatal_witness :
  exists w' t0,
    disk.Run fake.quote (fake.env true true)
      (fake.flags true false false "" "") ["a1"; "g2"; "r3"] 0
    = (Some (disk.Errorf_retrieve fake.quote "g2" fake.err_not_found), w',
       t0 ++ [disk.EvRetrieve "g2" (inl fake.err_not_found)])
    /\ In "g2" ["a1"; "g2"; "r3"]
    /\ Error (disk.Errorf_retrieve fake.quote "g2" fake.err_not_found)
       = ("retrieve " ++ fake.quote "g2" ++ ": "
          ++ Error fake.err_not_found)%string.
Proof.
  apply (explicit_id_retrieve_failure_is_fatal fake.quote (fake.env true true)
           (fake.flags true false false "" "") ["a1"; "g2"; "r3"] 0
           "g2" fake.err_not_found).
  - discriminate.
  - vm_compute. tauto.
Defined.

Lemma empty_args_discover_exactly_once_witness :
  exists x w2,
    disk.ListAttachedObjects (fake.manager true true) "k8s-region" "us-west-2" 1
    = (x, w2)
    /\ filter spec.is_discovery
         (snd (disk.Run fake.quote (fake.env true true)
                 (fake.flags true true false "k8s-region" "us-west-2") [] 0))
       = [disk.EvListAttachedObjects "k8s-region" "us-west-2" x]
    /\ match x with
       | inl e =>
           disk.Run fake.quote (fake.env true true)
             (fake.flags true true false "k8s-region" "us-west-2") [] 0
           = (Some e, w2,
              [disk.EvReconcileDatastoreInventory None]
              ++ [spec.discovery_event
                    (fake.flags true true false "k8s-region" "us-west-2") x])
       | inr oids =>
           disk.Run_result fake.quote (fake.env true true)
             (fake.flags true true false "k8s-region" "us-west-2") [] 0
           = let '(y, w3, t2) :=
               disk.retrieve_loop fake.quote
                 (fake.flags true true false "k8s-region" "us-west-2")
                 (fake.manager true true) true (map types.ID_Id oids) [] w2 in
             (spec.as_result
                (fake.flags true true false "k8s-region" "us-west-2") y, w3,
              [disk.EvReconcileDatastoreInventory None]
              ++ spec.discovery_event
                   (fake.flags true true false "k8s-region" "us-west-2") x
                 :: t2)
       end.
Proof.
  apply (empty_args_discover_exactly_once fake.quote (fake.env true true)
           (fake.flags true true false "k8s-region" "us-west-2") 0
           (fake.manager true true) 0 1
           [disk.EvReconcileDatastoreInventory None]); reflexivity.
Defined.

Lemma reconcile_called_once_and_first_witness :
  exists x w1 rest,
    disk.ReconcileDatastoreInventory (fake.manager false true) 0 = (x, w1)
    /\ snd (disk.Run fake.quote (fake.env false true)
              (fake.flags false true false "" "") ["a1"] 0)
       = disk.EvReconcileDatastoreInventory x :: rest
    /\ filter spec.is_reconcile rest = []
    /\ forall e, x = Some e ->
         disk.Run fake.quote (fake.env false true)
           (fake.flags false true false "" "") ["a1"] 0
         = (Some e, w1, [disk.EvReconcileDatastoreInventory (Some e)]).
Proof.
  exact (proj2 (reconcile_called_once_and_first fake.quote
                  (fake.env false true) (fake.flags false true false "" "")
                  ["a1"] 0)
           eq_refl (fake.manager false true) 0 eq_refl).
Defined.

Lemma tag_lookup_once_per_retrieved_object_witness :
  exists y t3,
    [disk.EvListAttachedTags "a1" (inr [fake.region_tag]);
     disk.EvRetrieve "g2" (inl fake.err_not_found);
     disk.EvRetrieve "r3" (inr (fake.rdm "r3"));
     disk.EvListAttachedTags "r3" (inr [fake.region_tag])]
    = disk.EvListAttachedTags "a1" y :: t3.
Proof.
  apply (proj1 (proj2 (tag_lookup_once_per_retrieved_object fake.quote
                         (fake.env true true)
                         (fake.flags true false true "" "") [] 0))
           eq_refl [disk.EvList (inr fake.listed)] "a1" (fake.disk_file "a1")).
  reflexivity.
Defined.

Lemma result_follows_id_sequence_witness :
  exists res w1 ids entries,
    disk.Run_result fake.quote (fake.env true true)
      (fake.flags true false false "" "") [] 0
    = (inr res, w1,
       [disk.EvList (inr fake.listed);
        disk.EvRetrieve "a1" (inr (fake.disk_file "a1"));
        disk.EvRetrieve "g2" (inl fake.err_not_found);
        disk.EvRetrieve "r3" (inr (fake.rdm "r3"))])
    /\ disk.WriteResult (fake.env true true) res w1 = (None, 4)
    /\ (@nil string <> [] -> ids = [])
    /\ (@nil string = [] ->
        exists oids,
          In (spec.discovery_event (fake.flags true false false "" "")
                (inr oids))
             [disk.EvList (inr fake.listed);
              disk.EvRetrieve "a1" (inr (fake.disk_file "a1"));
              disk.EvRetrieve "g2" (inl fake.err_not_found);
              disk.EvRetrieve "r3" (inr (fake.rdm "r3"))]
          /\ ids = map types.ID_Id oids)
    /\ map fst
         (spec.retrievals
            [disk.EvList (inr fake.listed);
             disk.EvRetrieve "a1" (inr (fake.disk_file "a1"));
             disk.EvRetrieve "g2" (inl fake.err_not_found);
             disk.EvRetrieve "r3" (inr (fake.rdm "r3"))]) = ids
    /\ Forall2 (spec.entry_of (fake.flags true false false "" "") [])
         (spec.retrievals
            [disk.EvList (inr fake.listed);
             disk.EvRetrieve "a1" (inr (fake.disk_file "a1"));
             disk.EvRetrieve "g2" (inl fake.err_not_found);
             disk.EvRetrieve "r3" (inr (fake.rdm "r3"))]) entries
    /\ disk.Objects res = flat_map spec.present entries
    /\ ((forall id o,
           In (disk.EvRetrieve id (inr o))
              [disk.EvList (inr fake.listed);
               disk.EvRetrieve "a1" (inr (fake.disk_file "a1"));
               disk.EvRetrieve "g2" (inl fake.err_not_found);
               disk.EvRetrieve "r3" (inr (fake.rdm "r3"))] ->
           types.ID_Id (types.Id (types.Base (types.Config o))) = id)
        -> Forall2 (fun id entry =>
                      forall obj, entry = Some obj -> spec.object_id obj = id)
                   ids entries).
Proof.
  apply (result_follows_id_sequence fake.quote (fake.env true true)
           (fake.flags true false false "" "") [] 0 4).
  reflexivity.
Defined.

Lemma query_flags_matter_only_through_category_witness :
  (forall tg',
      filter spec.is_discovery
        (snd (disk.Run fake.quote (fake.env true true)
                (spec.with_query "" tg' (fake.flags false true false "" "none"))
                [] 0))
      = [disk.EvList (inr fake.listed)])
  /\ (filter spec.is_discovery
        (snd (disk.Run fake.quote (fake.env true true)
                (fake.flags false true false "k8s-region" "us-west-2") [] 0))
      = [disk.EvListAttachedObjects "k8s-region" "us-west-2"
           (inr [types.mkID "g2"; types.mkID "a1"])])
  /\ (spec.objects_of
        (disk.Run_result fake.quote (fake.env true true)
           (spec.with_query "k8s-region" "none"
              (fake.flags false false true "" ""))
           ["r3"; "a1"] 0)
      = spec.objects_of
          (disk.Run_result fake.quote (fake.env true true)
             (fake.flags false false true "" "") ["r3"; "a1"] 0)
      /\ filter spec.is_discovery
           (snd (disk.Run fake.quote (fake.env true true)
                   (fake.flags false false true "" "") ["r3"; "a1"] 0)) = []).
Proof.
  split; [|split].
  - apply (proj1 (proj2 (proj2 (proj2
             (query_flags_matter_only_through_category fake.quote
                (fake.env true true) (fake.flags false true false "" "none")
                [] 0 "" ""))) (fake.manager true true) 0 1
             [disk.EvReconcileDatastoreInventory None] eq_refl eq_refl)).
    reflexivity.
  - apply (proj2 (proj2 (proj2 (proj2
             (query_flags_matter_only_through_category fake.quote
                (fake.env true true)
                (fake.flags false true false "k8s-region" "us-west-2")
                [] 0 "" ""))) (fake.manager true true) 0 1
             [disk.EvReconcileDatastoreInventory None] eq_refl eq_refl)).
    discriminate.
  - apply (proj1 (proj2 (proj2
             (query_flags_matter_only_through_category fake.quote
                (fake.env true true) (fake.flags false false true "" "")
                ["r3"; "a1"] 0 "k8s-region" "none")))).
    discriminate.
Defined.

(** *** Runs for the further properties *)

Example tags_column_collision :
  disk.VStorageObject_tags
    {| disk.Object := fake.disk_file "a1";
       disk.Tags := [{| types.TagName := "b,c:d";
                        types.ParentCategoryName := "a" |}] |}
  = disk.VStorageObject_tags
      {| disk.Object := fake.disk_file "a1";
         disk.Tags := [{| types.TagName := "b";
                          types.ParentCategoryName := "a" |};
                       {| types.TagName := "d";
                          types.ParentCategoryName := "c" |}] |}.
Proof. reflexivity. Qed.

Lemma tags_empty_iff_no_tags_witness :
  disk.VStorageObject_tags (disk.placeholder "g2") = "".
Proof.
  apply (proj2 (tags_empty_iff_no_tags (disk.placeholder "g2"))).
  reflexivity.
Defined.

Lemma tags_column_reads_back_witness :
  aux.parse_tags
    (disk.VStorageObject_tags
       {| disk.Object := fake.disk_file "a1";
          disk.Tags := [fake.region_tag;
                        {| types.TagName := "zone:b";
                           types.ParentCategoryName := "k8s-zone" |}] |})
  = [fake.region_tag;
     {| types.TagName := "zone:b"; types.ParentCategoryName := "k8s-zone" |}].
Proof.
  apply (tags_column_reads_back
           {| disk.Object := fake.disk_file "a1";
              disk.Tags := [fake.region_tag;
                            {| types.TagName := "zone:b";
                               types.ParentCategoryName := "k8s-zone" |}] |}).
  reflexivity.
Defined.

Lemma Write_empty_iff_no_objects_witness :
  disk.Write (fun _ => "10.0MB") (fun _ => "Nov 14 22:13:20")
    {| disk.cmd := fake.flags true false true "" ""; disk.Objects := [] |}
  = "".
Proof.
  apply (proj2 (Write_empty_iff_no_objects (fun _ => "10.0MB")
                  (fun _ => "Nov 14 22:13:20")
                  {| disk.cmd := fake.flags true false true "" "";
                     disk.Objects := [] |})).
  reflexivity.
Defined.

Lemma long_columns_size_witness :
  ((types.CapacityInMB (types.Config (disk.Object (fake.entry "a1")))
    * 1048576 + 2 ^ 63) mod 2 ^ 64 - 2 ^ 63
   = types.CapacityInMB (types.Config (disk.Object (fake.entry "a1")))
     * 1048576)%Z.
Proof.
  apply (proj2 (proj2 (long_columns_size (fun _ => "10.0MB")
                         (fun _ => "Nov 14 22:13:20")
                         (fake.flags true false true "" "")
                         (fake.entry "a1")))).
  split; [discriminate | reflexivity].
Defined.

Lemma other_retrieve_failure_is_fatal_witness :
  exists w' t0,
    disk.Run fake.quote (fake.env_listing ["a1"; "x9"; "r3"])
      (fake.flags true false false "" "") [] 0
    = (Some (disk.Errorf_retrieve fake.quote "x9" fake.err_denied), w',
       t0 ++ [disk.EvRetrieve "x9" (inl fake.err_denied)]).
Proof.
  apply (other_retrieve_failure_is_fatal fake.quote
           (fake.env_listing ["a1"; "x9"; "r3"])
           (fake.flags true false false "" "") [] 0 "x9" fake.err_denied).
  - reflexivity.
  - vm_compute. tauto.
Defined.

Lemma Run_error_has_a_source_witness :
  (disk.NewManagerFromFlag (fake.env true false) 0 = (inl fake.err_denied, 2)
   /\ [disk.EvRetrieve "a1" (inr (fake.disk_file "a1"));
       disk.EvListAttachedTags "a1" (inl fake.err_denied)] = [])
  \/ (disk.r (fake.flags false false true "" "") = true
      /\ [disk.EvRetrieve "a1" (inr (fake.disk_file "a1"));
          disk.EvListAttachedTags "a1" (inl fake.err_denied)]
         = [disk.EvReconcileDatastoreInventory (Some fake.err_denied)])
  \/ (["a1"; "r3"] = []
      /\ exists t0,
          [disk.EvRetrieve "a1" (inr (fake.disk_file "a1"));
           disk.EvListAttachedTags "a1" (inl fake.err_denied)]
          = t0 ++ [spec.discovery_event (fake.flags false false true "" "")
                     (inl fake.err_denied)])
  \/ (exists t0 id err,
        [disk.EvRetrieve "a1" (inr (fake.disk_file "a1"));
         disk.EvListAttachedTags "a1" (inl fake.err_denied)]
        = t0 ++ [disk.EvRetrieve id (inl err)]
        /\ fake.err_denied = disk.Errorf_retrieve fake.quote id err
        /\ spec.filters_not_found ["a1"; "r3"] && fault_Is_NotFound err
           = false)
  \/ (disk.tags (fake.flags false false true "" "") = true
      /\ exists t0 id,
          [disk.EvRetrieve "a1" (inr (fake.disk_file "a1"));
           disk.EvListAttachedTags "a1" (inl fake.err_denied)]
          = t0 ++ [disk.EvListAttachedTags id (inl fake.err_denied)])
  \/ (exists res w1,
        disk.Run_result fake.quote (fake.env true false)
          (fake.flags false false true "" "") ["a1"; "r3"] 0
        = (inr res, w1,
           [disk.EvRetrieve "a1" (inr (fake.disk_file "a1"));
            disk.EvListAttachedTags "a1" (inl fake.err_denied)])
        /\ disk.WriteResult (fake.env true false) res w1
           = (Some fake.err_denied, 2)).
Proof.
  apply (Run_error_has_a_source fake.quote (fake.env true false)
           (fake.flags false false true "" "") ["a1"; "r3"] 0).
  reflexivity.
Defined.

Lemma nil_return_means_calls_succeeded_witness :
  @nil string = [] /\ fault_Is_NotFound fake.err_not_found = true
  /\ exists id,
      disk.EvRetrieve "g2" (inl fake.err_not_found)
      = disk.EvRetrieve id (inl fake.err_not_found).
Proof.
  apply (nil_return_means_calls_succeeded fake.quote (fake.env true true)
           (fake.flags false false false "" "") [] 0 4
           [disk.EvList (inr fake.listed);
            disk.EvRetrieve "a1" (inr (fake.disk_file "a1"));
            disk.EvRetrieve "g2" (inl fake.err_not_found);
            disk.EvRetrieve "r3" (inr (fake.rdm "r3"))]).
  - reflexivity.
  - simpl. tauto.
  - reflexivity.
Defined.

Lemma retrieved_ids_are_a_prefix_witness :
  exists rest,
    ["a1"; "x9"; "r3"]
    = map fst
        (spec.retrievals
           (snd (disk.Run fake.quote (fake.env true true)
                   (fake.flags true false false "" "")
                   ["a1"; "x9"; "r3"] 0)))
      ++ rest.
Proof.
  apply (proj1 (retrieved_ids_are_a_prefix fake.quote (fake.env true true)
                  (fake.flags true false false "" "") ["a1"; "x9"; "r3"] 0)).
  discriminate.
Defined.

Lemma result_size_witness :
  length [disk.mkVStorageObject (fake.disk_file "a1") [];
          disk.placeholder "g2";
          disk.mkVStorageObject (fake.rdm "r3") []]
  <= length
       (spec.retrievals
          [disk.EvList (inr fake.listed);
           disk.EvRetrieve "a1" (inr (fake.disk_file "a1"));
           disk.EvRetrieve "g2" (inl fake.err_not_found);
           disk.EvRetrieve "r3" (inr (fake.rdm "r3"))])
  /\ (@nil string <> [] ->
      length [disk.mkVStorageObject (fake.disk_file "a1") [];
              disk.placeholder "g2";
              disk.mkVStorageObject (fake.rdm "r3") []]
      = length (@nil string))
  /\ (@nil string = [] -> true = true ->
      exists oids,
        In (spec.discovery_event (fake.flags true false false "" "")
              (inr oids))
           [disk.EvList (inr fake.listed);
            disk.EvRetrieve "a1" (inr (fake.disk_file "a1"));
            disk.EvRetrieve "g2" (inl fake.err_not_found);
            disk.EvRetrieve "r3" (inr (fake.rdm "r3"))]
        /\ length [disk.mkVStorageObject (fake.disk_file "a1") [];
                   disk.placeholder "g2";
                   disk.mkVStorageObject (fake.rdm "r3") []]
           = length oids).
Proof.
  apply (result_size fake.quote (fake.env true true)
           (fake.flags true false false "" "") [] 0
           {| disk.cmd := fake.flags true false false "" "";
              disk.Objects :=
                [disk.mkVStorageObject (fake.disk_file "a1") [];
                 disk.placeholder "g2";
                 disk.mkVStorageObject (fake.rdm "r3") []] |} 4).
  reflexivity.
Defined.

Lemma result_is_replay_of_answers_witness :
  [fake.entry "a1"; disk.placeholder "g2";
   {| disk.Object := fake.rdm "r3"; disk.Tags := [fake.region_tag] |}]
  = aux.replay true
      [disk.EvList (inr fake.listed);
       disk.EvRetrieve "a1" (inr (fake.disk_file "a1"));
       disk.EvListAttachedTags "a1" (inr [fake.region_tag]);
       disk.EvRetrieve "g2" (inl fake.err_not_found);
       disk.EvRetrieve "r3" (inr (fake.rdm "r3"));
       disk.EvListAttachedTags "r3" (inr [fake.region_tag])].
Proof.
  apply (result_is_replay_of_answers fake.quote (fake.env true true)
           (fake.flags true false true "" "") [] 0
           {| disk.cmd := fake.flags true false true "" "";
              disk.Objects :=
                [fake.entry "a1"; disk.placeholder "g2";
                 {| disk.Object := fake.rdm "r3";
                    disk.Tags := [fake.region_tag] |}] |} 6).
  reflexivity.
Defined.

Lemma nothing_retrieved_nothing_listed_witness :
  disk.Objects
    {| disk.cmd := fake.flags false false true "" ""; disk.Objects := [] |}
  = []
  /\ forall FileSize_String Format_Stamp,
       disk.Write FileSize_String Format_Stamp
         {| disk.cmd := fake.flags false false true "" "";
            disk.Objects := [] |} = "".
Proof.
  apply (nothing_retrieved_nothing_listed fake.quote
           (fake.env_listing ["g1"; "g2"])
           (fake.flags false false true "" "") [] 0
           {| disk.cmd := fake.flags false false true "" "";
              disk.Objects := [] |} 3
           [disk.EvList (inr [types.mkID "g1"; types.mkID "g2"]);
            disk.EvRetrieve "g1" (inl fake.err_not_found);
            disk.EvRetrieve "g2" (inl fake.err_not_found)]).
  - reflexivity.
  - reflexivity.
  - intros id o [H|[H|[H|[]]]]; discriminate H.
Defined.

Lemma calls_are_bounded_witness :
  length (snd (disk.Run fake.quote (fake.env true true)
                 (fake.flags false true true "" "") ["a1"; "r3"; "a1"] 0))
  <= (if disk.r (fake.flags false true true "" "") then 1 else 0)
     + (if disk.tags (fake.flags false true true "" "") then 2 else 1)
       * length ["a1"; "r3"; "a1"].
Proof.
  apply (proj1 (calls_are_bounded fake.quote (fake.env true true)
                  (fake.flags false true true "" "") ["a1"; "r3"; "a1"] 0)).
  discriminate.
Defined.

Lemma discovery_not_found_placeholder_or_omitted_witness :
  (exists x w5 t3,
      disk.retrieve_loop fake.quote (fake.flags true false true "" "")
        (fake.manager true true) true ["r3"]
        ([fake.entry "a1"]
         ++ (if disk.all (fake.flags true false true "" "")
             then [disk.placeholder "g2"] else [])) 4
      = (x, w5, t3)
      /\ disk.Run_result fake.quote (fake.env true true)
           (fake.flags true false true "" "") [] 0
         = (spec.as_result (fake.flags true false true "" "") x, w5,
            [] ++ [disk.EvList (inr fake.listed)]
            ++ [disk.EvRetrieve "a1" (inr (fake.disk_file "a1"));
                disk.EvListAttachedTags "a1" (inr [fake.region_tag])]
            ++ disk.EvRetrieve "g2" (inl fake.err_not_found) :: t3)
      /\ (forall next rest, ["r3"] = next :: rest ->
          exists y t4, t3 = disk.EvRetrieve next y :: t4)
      /\ (forall e, x = inl e ->
          (exists t4 id' err',
              t3 = t4 ++ [disk.EvRetrieve id' (inl err')]
              /\ e = disk.Errorf_retrieve fake.quote id' err'
              /\ fault_Is_NotFound err' = false)
          \/ (exists t4 id',
                t3 = t4 ++ [disk.EvListAttachedTags id' (inl e)]))
      /\ (forall res w' t,
            disk.Run_result fake.quote (fake.env true true)
              (fake.flags true false true "" "") [] 0 = (inr res, w', t) ->
            exists entries,
              Forall2 (spec.entry_of (fake.flags true false true "" "") [])
                (spec.retrievals t3) entries
              /\ disk.Objects res
                 = [fake.entry "a1"]
                   ++ (if disk.all (fake.flags true false true "" "")
                       then [disk.placeholder "g2"] else [])
                   ++ flat_map spec.present entries))
  /\ (exists x w5 t3,
        disk.retrieve_loop fake.quote (fake.flags false false true "" "")
          (fake.manager true true) true ["r3"]
          ([fake.entry "a1"]
           ++ (if disk.all (fake.flags false false true "" "")
               then [disk.placeholder "g2"] else [])) 4
        = (x, w5, t3)
        /\ disk.Run_result fake.quote (fake.env true true)
             (fake.flags false false true "" "") [] 0
           = (spec.as_result (fake.flags false false true "" "") x, w5,
              [] ++ [disk.EvList (inr fake.listed)]
              ++ [disk.EvRetrieve "a1" (inr (fake.disk_file "a1"));
                  disk.EvListAttachedTags "a1" (inr [fake.region_tag])]
              ++ disk.EvRetrieve "g2" (inl fake.err_not_found) :: t3)
        /\ (forall next rest, ["r3"] = next :: rest ->
            exists y t4, t3 = disk.EvRetrieve next y :: t4)
        /\ (forall e, x = inl e ->
            (exists t4 id' err',
                t3 = t4 ++ [disk.EvRetrieve id' (inl err')]
                /\ e = disk.Errorf_retrieve fake.quote id' err'
                /\ fault_Is_NotFound err' = false)
            \/ (exists t4 id',
                  t3 = t4 ++ [disk.EvListAttachedTags id' (inl e)]))
        /\ (forall res w' t,
              disk.Run_result fake.quote (fake.env true true)
                (fake.flags false false true "" "") [] 0 = (inr res, w', t) ->
              exists entries,
                Forall2 (spec.entry_of (fake.flags false false true "" "") [])
                  (spec.retrievals t3) entries
                /\ disk.Objects res
                   = [fake.entry "a1"]
                     ++ (if disk.all (fake.flags false false true "" "")
                         then [disk.placeholder "g2"] else [])
                     ++ flat_map spec.present entries)).
Proof.
  split.
  - apply (discovery_not_found_placeholder_or_omitted fake.quote
             (fake.env true true) (fake.flags true false true "" "") 0
             (fake.manager true true) 0 0 [] ["a1"] "g2" ["r3"] 1
             [disk.EvList (inr fake.listed)] [fake.entry "a1"] 3
             [disk.EvRetrieve "a1" (inr (fake.disk_file "a1"));
              disk.EvListAttachedTags "a1" (inr [fake.region_tag])]
             fake.err_not_found 4); reflexivity.
  - apply (discovery_not_found_placeholder_or_omitted fake.quote
             (fake.env true true) (fake.flags false false true "" "") 0
             (fake.manager true true) 0 0 [] ["a1"] "g2" ["r3"] 1
             [disk.EvList (inr fake.listed)] [fake.entry "a1"] 3
             [disk.EvRetrieve "a1" (inr (fake.disk_file "a1"));
              disk.EvListAttachedTags "a1" (inr [fake.region_tag])]
             fake.err_not_found 4); reflexivity.
Defined.

Lemma placeholder_entry_shape_witness :
  @nil string = [] /\ fault_Is_NotFound fake.err_not_found = true
  /\ nth_error
       [fake.entry "a1";
        {| disk.Object :=
             {| types.Config :=
                  {| types.Base :=
                       {| types.Id := types.mkID "g2";
                          types.Name :=
                            "not found: use 'disk.ls -R' to reconcile datastore inventory";
                          types.CreateTime := 0%Z;
                          types.Backing := types.nil_backing |};
                     types.CapacityInMB := 0%Z |} |};
           disk.Tags := [] |};
        {| disk.Object := fake.rdm "r3"; disk.Tags := [fake.region_tag] |}] 1
     = Some {| disk.Object :=
                 {| types.Config :=
                      {| types.Base :=
                           {| types.Id := types.mkID "g2";
                              types.Name :=
                                "not found: use 'disk.ls -R' to reconcile datastore inventory";
                              types.CreateTime := 0%Z;
                              types.Backing := types.nil_backing |};
                         types.CapacityInMB := 0%Z |} |};
               disk.Tags := [] |}.
Proof.
  apply (proj1 (proj2
           (placeholder_entry_shape fake.quote (fake.env true true)
              (fake.flags true false true "" "") [] 0
              {| disk.cmd := fake.flags true false true "" "";
                 disk.Objects :=
                   [fake.entry "a1"; disk.placeholder "g2";
                    {| disk.Object := fake.rdm "r3";
                       disk.Tags := [fake.region_tag] |}] |} 6
              [disk.EvList (inr fake.listed);
               disk.EvRetrieve "a1" (inr (fake.disk_file "a1"));
               disk.EvListAttachedTags "a1" (inr [fake.region_tag]);
               disk.EvRetrieve "g2" (inl fake.err_not_found);
               disk.EvRetrieve "r3" (inr (fake.rdm "r3"));
               disk.EvListAttachedTags "r3" (inr [fake.region_tag])]
              eq_refl eq_refl)) 1 "g2" fake.err_not_found).
  reflexivity.
Defined.
